(** * modulo3/main.py: salary analysis with dynamic enums, SQLite and three queries

    A shallow embedding of the script [src/modulo3/main.py] and of the library
    calls it relies on ([re.sub], [str.upper], [sorted], [dict] assignment,
    [datetime.strptime], [DataFrame.to_sql], the SQL aggregate query and the
    SQLAlchemy [Enum] column type), followed by the properties of the
    specification.

    Python strings are sequences of Unicode code points; the behaviour of
    [re], [str.upper] and [int] on ASCII is written out, and the Unicode
    character database they consult for the other code points is a parameter
    ([Py.unicode_data]).  SQLite [REAL] values are IEEE 754 doubles
    ([PrimFloat.float]). *)

From Stdlib Require Import ZArith NArith List Lia Bool Floats.
From Stdlib Require Import Strings.String Strings.Ascii.
From stdpp Require Import base list sorting.

Local Open Scope N_scope.

(* ===================================================================== *)
(** * Python values: strings, exceptions, dictionaries *)
(* ===================================================================== *)

Module Py.

(** A [str] is a sequence of code points. *)
Definition char := N.
Definition str := list N.

(** Code points of an ASCII literal of this file. *)
Definition lit (s : string) : str := map N_of_ascii (list_ascii_of_string s).

(** The part of the Unicode character database that [\w], [\d], [str.upper],
    [str.strip] and [int] read for a code point outside ASCII:
    [str.isalnum], the decimal digit value (category Nd), the full upper-case
    mapping (it may expand: U+00DF gives "SS") and [str.isspace]. *)
Record unicode_data := {
  ud_alnum : N -> bool;
  ud_decimal : N -> option N;
  ud_upper : N -> list N;
  ud_space : N -> bool
}.

(** The database restricted to U+0080..U+00FF (Latin-1 Supplement); nothing
    is recorded above U+00FF.  Used to evaluate the model on concrete
    inputs. *)
Definition latin1 : unicode_data := {|
  ud_alnum c :=
    (c =? 170) || (c =? 178) || (c =? 179) || (c =? 181) || (c =? 185) ||
    (c =? 186) || (c =? 188) || (c =? 189) || (c =? 190) ||
    ((192 <=? c) && (c <=? 214)) || ((216 <=? c) && (c <=? 246)) ||
    ((248 <=? c) && (c <=? 255));
  ud_decimal c := None;
  ud_upper c :=
    if c =? 181 then [924]
    else if c =? 223 then [83; 83]
    else if c =? 255 then [376]
    else if ((224 <=? c) && (c <=? 246)) || ((248 <=? c) && (c <=? 254))
         then [c - 32]
    else [c];
  ud_space c := (c =? 133) || (c =? 160)
|}.

Section Unicode.
Context (U : unicode_data).

Definition is_ascii (c : char) : bool := c <? 128.

(** [str.isalnum] on one code point. *)
Definition isalnum (c : char) : bool :=
  if is_ascii c
  then ((48 <=? c) && (c <=? 57)) || ((65 <=? c) && (c <=? 90)) ||
       ((97 <=? c) && (c <=? 122))
  else ud_alnum U c.

(** Decimal value of a digit character, [None] when it is not one. *)
Definition decimal (c : char) : option N :=
  if is_ascii c
  then if (48 <=? c) && (c <=? 57) then Some (c - 48) else None
  else ud_decimal U c.

Definition isdecimal (c : char) : bool :=
  match decimal c with Some _ => true | None => false end.

Definition isspace (c : char) : bool :=
  if is_ascii c
  then ((9 <=? c) && (c <=? 13)) || ((28 <=? c) && (c <=? 32))
  else ud_space U c.

(** [str.upper]: every code point is replaced by its upper-case mapping. *)
Definition upper_char (c : char) : str :=
  if is_ascii c
  then if (97 <=? c) && (c <=? 122) then [c - 32] else [c]
  else ud_upper U c.

Definition upper (s : str) : str := flat_map upper_char s.

(** [int(s)] for the unsigned decimal numerals the date parser hands to it:
    surrounding white space is stripped, then every character must be a
    decimal digit and there must be at least one; anything else is a
    [ValueError] ([None]). *)
Fixpoint lstrip (s : str) : str :=
  match s with
  | c :: s' => if isspace c then lstrip s' else s
  | [] => []
  end.

Definition strip (s : str) : str := rev (lstrip (rev (lstrip s))).

Fixpoint digits_value (acc : N) (s : str) : option N :=
  match s with
  | [] => Some acc
  | c :: s' =>
      match decimal c with
      | Some d => digits_value (10 * acc + d) s'
      | None => None
      end
  end.

Definition int (s : str) : option Z :=
  match strip s with
  | [] => None
  | t => option_map Z.of_N (digits_value 0 t)
  end.

End Unicode.

(** [a <= b] on strings: code point by code point, a proper prefix first. *)
Fixpoint str_leb (a b : str) : bool :=
  match a, b with
  | [], _ => true
  | _ :: _, [] => false
  | x :: a', y :: b' =>
      if x <? y then true else if y <? x then false else str_leb a' b'
  end.

Definition str_le (a b : str) : Prop := str_leb a b = true.

#[export] Instance str_le_dec a b : Decision (str_le a b).
Proof. unfold str_le. apply _. Defined.

(** [sorted(xs)] on strings. *)
Definition sorted (xs : list str) : list str := merge_sort str_le xs.

(** Exceptions and the outcome of a call: a value or a raised exception. *)
Inductive exn := ValueError | LookupError | IntegrityError.

Inductive outcome (A : Type) :=
| Return (a : A)
| Raise (e : exn).
Arguments Return {A} a.
Arguments Raise {A} e.

Definition bind {A B} (m : outcome A) (k : A -> outcome B) : outcome B :=
  match m with
  | Return a => k a
  | Raise e => Raise e
  end.

(** [try: body  except Exception: handler]. *)
Definition try_except {A} (body : outcome A) (handler : outcome A) : outcome A :=
  match body with
  | Return a => Return a
  | Raise _ => handler
  end.

Fixpoint mapM {A B} (f : A -> outcome B) (l : list A) : outcome (list B) :=
  match l with
  | [] => Return []
  | x :: l' => bind (f x) (fun y => bind (mapM f l') (fun ys => Return (y :: ys)))
  end.

(** A [dict] keeps its keys in insertion order; assigning to a key that is
    present replaces the value where the key stands. *)
Definition dict (V : Type) := list (str * V).

Fixpoint dict_set {V} (d : dict V) (k : str) (v : V) : dict V :=
  match d with
  | [] => [(k, v)]
  | (k', v') :: d' =>
      if decide (k = k') then (k', v) :: d' else (k', v') :: dict_set d' k v
  end.

Fixpoint dict_get {V} (d : dict V) (k : str) : option V :=
  match d with
  | [] => None
  | (k', v') :: d' => if decide (k = k') then Some v' else dict_get d' k
  end.

Definition dict_keys {V} (d : dict V) : list str := map fst d.

(** Iteration over a [set] of strings visits every element once, in an order
    that depends on the hashes of the process (it changes from run to run).
    A [set_order] is one such way of enumerating the set built from the
    elements [l]. *)
Record set_order := {
  iterate : list str -> list str;
  iterate_NoDup : forall l, NoDup (iterate l);
  iterate_elem : forall l x, x ∈ iterate l <-> x ∈ l
}.

End Py.

Import Py.

Notation "x <- m ;; k" := (bind m (fun x => k))
  (at level 100, m at next level, right associativity).

(* ===================================================================== *)
(** * The [re] module: a backtracking matcher *)
(* ===================================================================== *)

Module Re.

(** The constructs the two patterns of the program use.  [Cls p] is a
    one-character class ([\W], [\d], [[1-9]]), [Bol] is [^], [Ahead r] is the
    lookahead [(?=r)] and [Grp n r] the named group [(?P<n>r)]. *)
Inductive regex :=
| Chr (c : char)
| Cls (p : char -> bool)
| Cat (r1 r2 : regex)
| Alt (r1 r2 : regex)
| Bol
| Ahead (r : regex)
| Grp (name : string) (r : regex).

(** A position of the matcher: the index reached, the text from there on,
    and the groups captured so far. *)
Definition groups := list (string * str).
Definition position := (nat * str * groups)%type.

(** Every way [r] can match at a position, in the order the backtracking
    engine tries them (the leftmost alternative first). *)
Fixpoint run (r : regex) (pos : nat) (s : str) (g : groups) : list position :=
  match r with
  | Chr c =>
      match s with
      | x :: s' => if x =? c then [(S pos, s', g)] else []
      | [] => []
      end
  | Cls p =>
      match s with
      | x :: s' => if p x then [(S pos, s', g)] else []
      | [] => []
      end
  | Cat r1 r2 =>
      flat_map (fun '(pos', s', g') => run r2 pos' s' g') (run r1 pos s g)
  | Alt r1 r2 => run r1 pos s g ++ run r2 pos s g
  | Bol => if Nat.eqb pos 0 then [(pos, s, g)] else []
  | Ahead r1 =>
      match run r1 pos s g with
      | [] => []
      | _ :: _ => [(pos, s, g)]
      end
  | Grp name r1 =>
      map (fun '(pos', s', g') => (pos', s', (name, take (pos' - pos) s) :: g'))
          (run r1 pos s g)
  end.

(** [re.match(r, s)]: the first way [r] matches at the start of [s]; the end
    index and the groups. *)
Definition rmatch (r : regex) (s : str) : option (nat * groups) :=
  match run r 0 s [] with
  | (pos', _, g) :: _ => Some (pos', g)
  | [] => None
  end.

Fixpoint group (g : groups) (name : string) : option str :=
  match g with
  | [] => None
  | (n, v) :: g' => if String.eqb n name then Some v else group g' name
  end.

(** A match of [r] that starts exactly at [pos]; when [must_advance] is set
    (the previous match was empty and ended here) an empty match is refused
    and the engine backtracks into the next one. *)
Definition match_here (r : regex) (pos : nat) (s : str) (must_advance : bool)
  : option (nat * str) :=
  match filter (fun p : position => negb must_advance || Nat.ltb pos (p.1.1))
               (run r pos s []) with
  | (pos', s', _) :: _ => Some (pos', s')
  | [] => None
  end.

(** The loop of [re.sub(r, repl, s)] for a replacement without group
    references: search for the next match from [pos]; copy the text skipped,
    write [repl], and resume where the match ended.  Every round consumes a
    character or turns [must_advance] on, so [2 * len(s) + 2] rounds are
    enough. *)
Fixpoint sub_loop (fuel : nat) (r : regex) (repl : str)
    (pos : nat) (s : str) (must_advance : bool) : str :=
  match fuel with
  | O => s
  | S fuel' =>
      match match_here r pos s must_advance with
      | Some (pos', s') =>
          repl ++ sub_loop fuel' r repl pos' s' (Nat.eqb pos' pos)
      | None =>
          match s with
          | [] => []
          | c :: t => c :: sub_loop fuel' r repl (S pos) t false
          end
      end
  end.

Definition sub (r : regex) (repl : str) (s : str) : str :=
  sub_loop (2 * length s + 2) r repl 0%nat s false.

End Re.

(* ===================================================================== *)
(** * 2) The dynamic enums: [criar_enum_dinamico] *)
(* ===================================================================== *)

(** A cell of a column read by [pd.read_csv] from a text column: a string, or
    one of the markers of a missing value. *)
Inductive raw :=
| RNaN
| RNone
| RStr (s : str).

#[export] Instance raw_eq_dec : EqDecision raw.
Proof. solve_decision. Defined.

Definition notna (v : raw) : bool :=
  match v with
  | RStr _ => true
  | RNaN | RNone => false
  end.

(** [str(v)]. *)
Definition py_str (v : raw) : str :=
  match v with
  | RStr s => s
  | RNaN => lit "nan"
  | RNone => lit "None"
  end.

(** An enum class: its name, and its members as the mapping from member
    name to value, in the order of their definition.  The same record holds
    the two arguments of a call [PyEnum(nome_enum, membros)]. *)
Record PyEnum := {
  enum_name : str;
  enum_members : dict str
}.

Section Enums.
Context (U : unicode_data).

(** The pattern [r"\W|^(?=\d)"]: one character that is not a word character,
    or the empty string at the start of the text when a digit follows. *)
Definition is_word (c : char) : bool := isalnum U c || (c =? 95).

Definition pattern : Re.regex :=
  Re.Alt (Re.Cls (fun c => negb (is_word c)))
         (Re.Cat Re.Bol (Re.Ahead (Re.Cls (isdecimal U)))).

(** [chave = re.sub(r"\W|^(?=\d)", "_", valor).upper()] *)
Definition chave (valor : str) : str :=
  upper U (Re.sub pattern (lit "_") valor).

(** [{str(v) for v in valores if pd.notna(v)}], before the set removes
    duplicates. *)
Definition textos (valores : list raw) : list str :=
  map py_str (filter (fun v => notna v = true) valores).

(** The loop [for valor in valores_unicos: membros[chave] = valor]. *)
Definition membros_loop (valores_unicos : list str) (membros : dict str) : dict str :=
  fold_left (fun m valor => dict_set m (chave valor) valor) valores_unicos membros.

(** Lines 68 to 73 of the function, and the two arguments that line 74
    hands to [PyEnum]: the name and [membros].  What [PyEnum] makes of them
    is [new_enum] below; [enum_built] is the value the function returns. *)
Definition criar_enum_dinamico (h : set_order) (nome_enum : str)
    (valores : list raw) : PyEnum :=
  let valores_unicos := sorted (iterate h (textos valores)) in
  let membros := membros_loop valores_unicos [] in
  {| enum_name := nome_enum; enum_members := membros |}.

End Enums.

(** The call [PyEnum(nome_enum, membros)] of line 74 (the functional API of
    [enum.Enum], CPython 3.11).  Every entry of [membros] is assigned to the
    namespace of the new class, whose [__setitem__] sorts the names:
    - a private name [_Class__x] and a name [__x__] become plain attributes
      of the class, not members;
    - a name [_x_] is reserved: [ValueError];
    - any other name is the name of a member, and the class is refused with
      [ValueError] when the empty name is among them. *)
Definition ascii_lower (c : char) : bool := (97 <=? c) && (c <=? 122).

(** [s.startswith(prefix)] *)
Fixpoint startswith (s prefix : str) : bool :=
  match prefix, s with
  | [], _ => true
  | p :: prefix', c :: s' => (c =? p) && startswith s' prefix'
  | _ :: _, [] => false
  end.

(** [_is_private(cls_name, name)]; its third test compares a string with a
    list and never fails. *)
Definition is_private (cls_name name : str) : bool :=
  let pattern := lit "_" ++ cls_name ++ lit "__" in
  let n := length name in
  (length pattern <? n)%nat && startswith name pattern &&
  (negb (nth (n - 1)%nat name 0 =? 95) || negb (nth (n - 2)%nat name 0 =? 95)).

(** [_is_sunder(name)] *)
Definition is_sunder (name : str) : bool :=
  let n := length name in
  (2 <? n)%nat && (nth 0%nat name 0 =? 95) && (nth (n - 1)%nat name 0 =? 95) &&
  negb (nth 1%nat name 0 =? 95) && negb (nth (n - 2)%nat name 0 =? 95).

(** [_is_dunder(name)] *)
Definition is_dunder (name : str) : bool :=
  let n := length name in
  (4 <? n)%nat && (nth 0%nat name 0 =? 95) && (nth 1%nat name 0 =? 95) &&
  (nth (n - 2)%nat name 0 =? 95) && (nth (n - 1)%nat name 0 =? 95) &&
  negb (nth 2%nat name 0 =? 95) && negb (nth (n - 3)%nat name 0 =? 95).

Inductive name_kind := Attribute | Reserved | Member.

Definition kind_of (cls_name key : str) : name_kind :=
  if is_private cls_name key then Attribute
  else if is_sunder key then Reserved
  else if is_dunder key then Attribute
  else Member.

Definition is_reserved (cls_name key : str) : bool :=
  match kind_of cls_name key with Reserved => true | _ => false end.

Definition makes_member (cls_name key : str) : bool :=
  match kind_of cls_name key with Member => true | _ => false end.

(** Python gives a meaning of its own to some names with lower-case
    letters ([_order_], [_ignore_], [__new__], [mro], ...).  [str.upper]
    never produces an ASCII lower-case letter, so the labels of the program
    are not among them; the model covers the names without such a letter
    and says nothing ([None]) of a mapping with another name. *)
Definition empty_name (kv : str * str) : bool :=
  match kv.1 with
  | [] => true
  | _ :: _ => false
  end.

Definition new_enum (nome_enum : str) (membros : dict str) : option (outcome PyEnum) :=
  if existsb (fun kv => existsb ascii_lower kv.1) membros then None
  else
    Some
      (if existsb (fun kv => is_reserved nome_enum kv.1) membros
       then Raise ValueError
       else
         let members := List.filter (fun kv => makes_member nome_enum kv.1) membros in
         if existsb empty_name members
         then Raise ValueError
         else Return {| enum_name := nome_enum; enum_members := members |}).

(** [criar_enum_dinamico(nome_enum, valores)]: the value line 74 returns, or
    the exception it raises. *)
Definition enum_built (U : unicode_data) (h : set_order) (nome_enum : str)
    (valores : list raw) : option (outcome PyEnum) :=
  new_enum nome_enum (enum_members (criar_enum_dinamico U h nome_enum valores)).

(* ===================================================================== *)
(** * Dates: [datetime.date], [datetime.strptime] and [parse_date] *)
(* ===================================================================== *)

Record date := {
  year : Z;
  month : Z;
  day : Z
}.

Record datetime := {
  dt_year : Z;
  dt_month : Z;
  dt_day : Z;
  dt_hour : Z;
  dt_minute : Z;
  dt_second : Z;
  dt_microsecond : Z
}.

(** [dt.date()] *)
Definition datetime_date (dt : datetime) : date :=
  {| year := dt_year dt; month := dt_month dt; day := dt_day dt |}.

Definition is_leap (y : Z) : bool :=
  ((y mod 4 =? 0) && (negb (y mod 100 =? 0) || (y mod 400 =? 0)))%Z.

Definition days_in_month (y m : Z) : Z :=
  (if m =? 2 then (if is_leap y then 29 else 28)
   else if (m =? 4) || (m =? 6) || (m =? 9) || (m =? 11) then 30
   else 31)%Z.

(** The check [datetime.date(y, m, d)] makes: year in 1..9999, month in
    1..12, day within the month. *)
Definition date_fields_ok (y m d : Z) : bool :=
  ((1 <=? y) && (y <=? 9999) && (1 <=? m) && (m <=? 12) &&
   (1 <=? d) && (d <=? days_in_month y m))%Z.

Definition new_date (y m d : Z) : outcome date :=
  if date_fields_ok y m d
  then Return {| year := y; month := m; day := d |}
  else Raise ValueError.

Section Dates.
Context (U : unicode_data).

Definition between (lo hi : string) (c : char) : bool :=
  match lit lo, lit hi with
  | [a], [b] => (a <=? c) && (c <=? b)
  | _, _ => false
  end.

Definition chr (s : string) : Re.regex :=
  match lit s with
  | [a] => Re.Chr a
  | _ => Re.Cls (fun _ => false)
  end.

Definition digit_class : Re.regex := Re.Cls (isdecimal U).

(** [%m]: [(?P<m>1[0-2]|0[1-9]|[1-9])] *)
Definition re_m : Re.regex :=
  Re.Grp "m"
    (Re.Alt (Re.Cat (chr "1") (Re.Cls (between "0" "2")))
    (Re.Alt (Re.Cat (chr "0") (Re.Cls (between "1" "9")))
            (Re.Cls (between "1" "9")))).

(** [%d]: [(?P<d>3[0-1]|[1-2]\d|0[1-9]|[1-9]| [1-9])] *)
Definition re_d : Re.regex :=
  Re.Grp "d"
    (Re.Alt (Re.Cat (chr "3") (Re.Cls (between "0" "1")))
    (Re.Alt (Re.Cat (Re.Cls (between "1" "2")) digit_class)
    (Re.Alt (Re.Cat (chr "0") (Re.Cls (between "1" "9")))
    (Re.Alt (Re.Cls (between "1" "9"))
            (Re.Cat (chr " ") (Re.Cls (between "1" "9"))))))).

(** [%Y]: [(?P<Y>\d\d\d\d)] *)
Definition re_Y : Re.regex :=
  Re.Grp "Y" (Re.Cat digit_class (Re.Cat digit_class (Re.Cat digit_class digit_class))).

(** The regular expression [_strptime] compiles for the format
    ["%m/%d/%Y"].  It is compiled with [re.IGNORECASE], which changes nothing
    for digits, the space and the slash. *)
Definition format_regex : Re.regex :=
  Re.Cat re_m (Re.Cat (chr "/") (Re.Cat re_d (Re.Cat (chr "/") re_Y))).

(** [int(found_dict[name])], or the default of a directive that is absent. *)
Definition int_group (g : Re.groups) (name : string) (default : Z) : outcome Z :=
  match Re.group g name with
  | None => Return default
  | Some t =>
      match int U t with
      | Some z => Return z
      | None => Raise ValueError
      end
  end.

(** [datetime.strptime(s, "%m/%d/%Y")]: the text must match the regular
    expression from its first to its last character, and the three numbers
    must form a date; every failure is a [ValueError]. *)
Definition strptime (s : str) : outcome datetime :=
  match Re.rmatch format_regex s with
  | None => Raise ValueError
  | Some (end_, g) =>
      if negb (Nat.eqb (length s) end_) then Raise ValueError
      else
        m <- int_group g "m" 1%Z ;;
        d <- int_group g "d" 1%Z ;;
        y <- int_group g "Y" 1900%Z ;;
        _ <- new_date y m d ;;
        Return {| dt_year := y; dt_month := m; dt_day := d; dt_hour := 0;
                  dt_minute := 0; dt_second := 0; dt_microsecond := 0 |}
  end.

(** A cell of a date column: a missing value ([NaN], [None], [NaT]), an
    object that is already a [datetime], a string, or any other scalar (a
    number, a [date], ...), given by the text [str()] makes of it. *)
Inductive cell :=
| CNaN
| CNone
| CNaT
| CDatetime (dt : datetime)
| CStr (s : str)
| COther (text : str).

(** [pd.isna] on a scalar. *)
Definition isna (c : cell) : bool :=
  match c with
  | CNaN | CNone | CNaT => true
  | CDatetime _ | CStr _ | COther _ => false
  end.

(** [parse_date] of the script.  The three tests are made in the order of
    the source; the [try] turns every exception of the parse into [None]. *)
Definition parse_date (date_str : cell) : outcome (option date) :=
  if isna date_str then Return None
  else
    match date_str with
    | CDatetime dt => Return (Some (datetime_date dt))
    | CStr s | COther s =>
        try_except (dt <- strptime s ;; Return (Some (datetime_date dt)))
                   (Return None)
    | CNaN | CNone | CNaT => Return None
    end.

End Dates.

(** The text of a date in the format of the specification: two digits for
    the month, two for the day, four for the year, as in "04/20/2014". *)
Definition digit (n : Z) : char := Z.to_N (48 + n).

Definition two_digits (n : Z) : str := [digit (n / 10); digit (n mod 10)]%Z.

Definition four_digits (n : Z) : str :=
  [digit (n / 1000); digit (n / 100 mod 10); digit (n / 10 mod 10); digit (n mod 10)]%Z.

Definition month_day_year (d : date) : str :=
  two_digits (month d) ++ lit "/" ++ two_digits (day d) ++ lit "/" ++ four_digits (year d).

(** [str(dt)] of a [datetime]: "2014-04-20 13:45:00", with the six digits
    of the microseconds after a point when they are not zero. *)
Definition six_digits (n : Z) : str :=
  two_digits (n / 10000) ++ four_digits (n mod 10000).

Definition datetime_str (dt : datetime) : str :=
  four_digits (dt_year dt) ++ lit "-" ++ two_digits (dt_month dt) ++ lit "-" ++
  two_digits (dt_day dt) ++ lit " " ++ two_digits (dt_hour dt) ++ lit ":" ++
  two_digits (dt_minute dt) ++ lit ":" ++ two_digits (dt_second dt) ++
  (if (dt_microsecond dt =? 0)%Z then [] else lit "." ++ six_digits (dt_microsecond dt)).

(* ===================================================================== *)
(** * 1), 5) The DataFrame, the table [salaries] and [df.to_sql] *)
(* ===================================================================== *)

(** A row of the DataFrame read from [salaries.csv], whose header names the
    thirteen columns.  A text column holds a string or a missing value; a
    column of doubles holds [NaN] for a missing value; [AGE] and the leaves
    hold a whole number or nothing.  [D] is the type of the two date
    columns: cells as read, then dates.  The numbers are those of an
    [int64] or [float64] column: [read_csv] gives a column of whole numbers
    from 2^63 on the type [uint64], which [to_sql] does not accept, so the
    frames of the model are those whose numbers stay within the signed 64
    bits ([within_int64] below). *)
Record Row (D : Type) := {
  FIRST_NAME : raw;
  LAST_NAME : raw;
  SEX : raw;
  DOJ : D;
  CURRENT_DATE : D;
  DESIGNATION : raw;
  AGE : option Z;
  SALARY : float;
  UNIT : raw;
  LEAVES_USED : option Z;
  LEAVES_REMAINING : option Z;
  RATINGS : float;
  PAST_EXP : float
}.
Arguments FIRST_NAME {D}. Arguments LAST_NAME {D}. Arguments SEX {D}.
Arguments DOJ {D}. Arguments CURRENT_DATE {D}. Arguments DESIGNATION {D}.
Arguments AGE {D}. Arguments SALARY {D}. Arguments UNIT {D}.
Arguments LEAVES_USED {D}. Arguments LEAVES_REMAINING {D}.
Arguments RATINGS {D}. Arguments PAST_EXP {D}.

(** A stored row of the table [salaries] ([class SalaryRecord]): the columns
    declared [nullable=False] always hold a value, the others may be
    [NULL]. *)
Record SalaryRecord := {
  id : Z;
  first_name : str;
  last_name : str;
  sex : str;
  doj : option date;
  current_date : option date;
  designation : str;
  age : option Z;
  salary : float;
  unit : str;
  leaves_used : option Z;
  leaves_remaining : option Z;
  ratings : option float;
  past_exp : option float
}.

Definition table := list SalaryRecord.

(** [df[col].unique()]: the distinct cells in the order they first occur. *)
Fixpoint unique_from (seen col : list raw) : list raw :=
  match col with
  | [] => []
  | v :: col' =>
      if decide (v ∈ seen) then unique_from seen col'
      else v :: unique_from (v :: seen) col'
  end.

Definition unique (col : list raw) : list raw := unique_from [] col.

Section Persist.
Context (U : unicode_data).

(** [df["DOJ"] = df["DOJ"].apply(parse_date)] and the same for
    ["CURRENT DATE"]: each column is converted in turn (both are columns of
    the frame, so both tests [in df.columns] succeed). *)
Definition with_dates (r : Row cell) (d1 d2 : option date) : Row (option date) :=
  {| FIRST_NAME := FIRST_NAME r; LAST_NAME := LAST_NAME r; SEX := SEX r;
     DOJ := d1; CURRENT_DATE := d2; DESIGNATION := DESIGNATION r;
     AGE := AGE r; SALARY := SALARY r; UNIT := UNIT r;
     LEAVES_USED := LEAVES_USED r; LEAVES_REMAINING := LEAVES_REMAINING r;
     RATINGS := RATINGS r; PAST_EXP := PAST_EXP r |}.

Fixpoint zip_dates (df : list (Row cell)) (c1 c2 : list (option date))
  : list (Row (option date)) :=
  match df, c1, c2 with
  | r :: df', d1 :: c1', d2 :: c2' => with_dates r d1 d2 :: zip_dates df' c1' c2'
  | _, _, _ => []
  end.

Definition convert_dates (df : list (Row cell)) : outcome (list (Row (option date))) :=
  c1 <- mapM (parse_date U) (map DOJ df) ;;
  c2 <- mapM (parse_date U) (map CURRENT_DATE df) ;;
  Return (zip_dates df c1 c2).

End Persist.

(** What [to_sql] sends for a text cell, and for a double: a missing value
    becomes [NULL]. *)
Definition sql_text (v : raw) : option str :=
  match v with
  | RStr s => Some s
  | RNaN | RNone => None
  end.

Definition sql_real (x : float) : option float :=
  if PrimFloat.is_nan x then None else Some x.

(** The key SQLite gives to a new row of a table whose primary key is an
    [INTEGER PRIMARY KEY]: 1 in an empty table, otherwise one more than the
    largest key in use, whatever its sign.  (Once the largest key is
    2^63 - 1 SQLite tries unused keys at random; the properties of keys
    below are stated for keys under this bound.) *)
Definition next_id (t : table) : Z :=
  match map id t with
  | [] => 1
  | k :: ks => 1 + fold_right Z.max k ks
  end%Z.

(** The stored row [to_sql] makes of a row of the frame under the key [i];
    there is none when a [NOT NULL] column would receive [NULL]. *)
Definition record_of (i : Z) (r : Row (option date)) : option SalaryRecord :=
  match sql_text (FIRST_NAME r), sql_text (LAST_NAME r), sql_text (SEX r),
        sql_text (DESIGNATION r), sql_real (SALARY r), sql_text (UNIT r) with
  | Some fn, Some ln, Some sx, Some dg, Some sal, Some un =>
      Some {| id := i; first_name := fn; last_name := ln;
              sex := sx; doj := DOJ r; current_date := CURRENT_DATE r;
              designation := dg; age := AGE r; salary := sal;
              unit := un; leaves_used := LEAVES_USED r;
              leaves_remaining := LEAVES_REMAINING r;
              ratings := sql_real (RATINGS r);
              past_exp := sql_real (PAST_EXP r) |}
  | _, _, _, _, _, _ => None
  end.

(** One [INSERT]: the row is added at the end under a fresh key; a [NULL]
    in a [NOT NULL] column is refused with [IntegrityError]. *)
Definition insert_row (t : table) (r : Row (option date)) : outcome table :=
  match record_of (next_id t) r with
  | Some s => Return (t ++ [s])
  | None => Raise IntegrityError
  end.

(** [df.to_sql(name="salaries", con=engine, if_exists="append",
    index=False)]: the rows of the frame are inserted one after the other
    ([executemany]).  The call returns when every row is in; it raises at
    the first row that is refused.  [to_sql] is the outcome of the call,
    with the table it leaves when it returns; [to_sql_store] is the table
    the store holds after the call in either case: the rows inserted before
    the one that is refused stay, as pandas commits them when it closes its
    connection. *)
Fixpoint to_sql (df : list (Row (option date))) (t : table) : outcome table :=
  match df with
  | [] => Return t
  | r :: df' => t' <- insert_row t r ;; to_sql df' t'
  end.

Fixpoint to_sql_store (df : list (Row (option date))) (t : table) : table :=
  match df with
  | [] => t
  | r :: df' =>
      match insert_row t r with
      | Return t' => to_sql_store df' t'
      | Raise _ => t
      end
  end.

(** Sections 4 and 5 of the script on a store that holds [t]:
    [create_all] leaves an existing table alone, the date columns are
    converted, the frame is appended. *)
Definition populate (U : unicode_data) (df : list (Row cell)) (t : table)
  : outcome table :=
  df' <- convert_dates U df ;;
  to_sql df' t.

(** The table the store holds after these sections, whether they ended or
    raised. *)
Definition populate_store (U : unicode_data) (df : list (Row cell)) (t : table)
  : table :=
  match convert_dates U df with
  | Return df' => to_sql_store df' t
  | Raise _ => t
  end.

(* ===================================================================== *)
(** * 6) The aggregate query, three ways *)
(* ===================================================================== *)

Record AggRow (K : Type) := {
  agg_designation : K;
  min_monthly_salary : float;
  max_monthly_salary : float;
  avg_monthly_salary : float
}.
Arguments agg_designation {K}. Arguments min_monthly_salary {K}.
Arguments max_monthly_salary {K}. Arguments avg_monthly_salary {K}.

(** ["SALARY" / 12.0] *)
Definition monthly (r : SalaryRecord) : float := (salary r / 12)%float.

(** The aggregates of SQLite on doubles: [MIN] and [MAX] keep the best value
    seen and replace it by a strictly better one; [AVG] divides the running
    sum, started at [0.0], by the number of rows.  (SQLite 3.44 and later
    carry a correction term along the sum; the result is the same whenever
    the plain sum is exact.) *)
Definition min_step (best x : float) : float := if (x <? best)%float then x else best.
Definition max_step (best x : float) : float := if (best <? x)%float then x else best.

Definition sql_min (x : float) (xs : list float) : float := fold_left min_step xs x.
Definition sql_max (x : float) (xs : list float) : float := fold_left max_step xs x.

Definition count (xs : list float) : float :=
  PrimFloat.of_uint63 (Uint63.of_Z (Z.of_nat (length xs))).

Definition sql_avg (xs : list float) : float :=
  (fold_left PrimFloat.add xs 0 / count xs)%float.

(** [GROUP BY "DESIGNATION"]: the groups, in the order of their keys. *)
Definition group_keys (t : table) : list str :=
  sorted (remove_dups (map designation t)).

(** The values of ["SALARY" / 12.0] over the rows of one group, in the order
    of the table. *)
Definition group_values (t : table) (k : str) : list float :=
  map monthly (filter (fun r => designation r = k) t).

(** The output row of one group; a key without rows makes no group. *)
Definition aggregate (k : str) (xs : list float) : option (AggRow str) :=
  match xs with
  | [] => None
  | x :: xs' =>
      Some {| agg_designation := k;
              min_monthly_salary := sql_min x xs';
              max_monthly_salary := sql_max x xs';
              avg_monthly_salary := sql_avg xs |}
  end.

(** [ORDER BY avg_monthly_salary DESC]: no row stands before one with a
    greater average. *)
Definition avg_desc {K} (a b : AggRow K) : Prop :=
  (avg_monthly_salary a <? avg_monthly_salary b)%float = false.

#[export] Instance avg_desc_dec {K} (a b : AggRow K) : Decision (avg_desc a b).
Proof. unfold avg_desc. apply _. Defined.

(** SQL leaves the order of rows with equal averages open, and SQLite
    gives no rule for it.  A [row_order] is one way of putting the rows of
    a result in the order [ORDER BY avg_monthly_salary DESC] asks for. *)
Record row_order := {
  order_by : list (AggRow str) -> list (AggRow str);
  order_by_perm : forall l, order_by l ≡ₚ l;
  order_by_sorted : forall l, Sorted avg_desc (order_by l)
}.

(** The meaning of the [SELECT] that both [query_sql] and [stmt] state. *)
Definition select_salaries (o : row_order) (t : table) : list (AggRow str) :=
  order_by o (omap (fun k => aggregate k (group_values t k)) (group_keys t)).

(** A) [conn.execute(text(query_sql))]: the rows as the database returns
    them. *)
Definition query_sql (o : row_order) (t : table) : outcome (list (AggRow str)) :=
  Return (select_salaries o t).

(** B) [pd.read_sql_query(query_sql, conn)]: the same rows as a frame. *)
Record DataFrame := {
  columns : list string;
  data : list (AggRow str)
}.

Definition read_sql_query (o : row_order) (t : table) : outcome DataFrame :=
  rows <- query_sql o t ;;
  Return {| columns := ["designation"; "min_monthly_salary";
                        "max_monthly_salary"; "avg_monthly_salary"]%string;
            data := rows |}.

(** C) [session.execute(stmt).all()].  The column [SalaryRecord.designation]
    has the type [SAEnum(DesignationEnum)]: SQLAlchemy persists and reads
    such a column by the *names* of the members, and turns every string it
    reads into the member of that name; a string that is no member name
    raises [LookupError]. *)
Record member := {
  member_name : str;
  member_value : str
}.

Definition enum_result (E : PyEnum) (elem : str) : outcome member :=
  match dict_get (enum_members E) elem with
  | Some v => Return {| member_name := elem; member_value := v |}
  | None => Raise LookupError
  end.

Definition stmt (o : row_order) (DesignationEnum : PyEnum) (t : table)
  : outcome (list (AggRow member)) :=
  mapM (fun r : AggRow str =>
          m <- enum_result DesignationEnum (agg_designation r) ;;
          Return {| agg_designation := m;
                    min_monthly_salary := min_monthly_salary r;
                    max_monthly_salary := max_monthly_salary r;
                    avg_monthly_salary := avg_monthly_salary r |})
       (select_salaries o t).

(* ===================================================================== *)
(** * Statements of the specification *)
(* ===================================================================== *)

Section Labels.
Context (U : unicode_data).

(** What the substitution does to a text, character by character: a
    character that is not a word character becomes an underscore, the others
    stay; an underscore is put in front of a text that starts with a
    digit. *)
Definition escape_char (c : char) : str := if is_word U c then [c] else lit "_".

Definition escape (s : str) : str :=
  match s with
  | [] => []
  | c :: _ =>
      (if is_word U c && isdecimal U c then lit "_" else []) ++ flat_map escape_char s
  end.



End Labels.

(** A text that matches [[A-Z_][A-Z0-9_]*]. *)
Definition identifier_start (c : char) : bool := ((65 <=? c) && (c <=? 90)) || (c =? 95).

Definition identifier_part (c : char) : bool :=
  identifier_start c || ((48 <=? c) && (c <=? 57)).

Definition is_identifier (s : str) : bool :=
  match s with
  | [] => false
  | c :: t => identifier_start c && forallb identifier_part t
  end.

(** What [upper] makes of a word character [c] is one character of an
    identifier, which can start one unless [c] is a digit. *)
Definition upper_word_ok (U : unicode_data) (c : char) : bool :=
  implb (is_word U c)
    match upper_char U c with
    | [c'] => identifier_part c' && (isdecimal U c || identifier_start c')
    | _ => false
    end.

(** Two iteration orders of a set: the order in which the elements were
    last added, and its reverse. *)
Definition last_seen : set_order :=
  {| iterate := remove_dups;
     iterate_NoDup := NoDup_remove_dups;
     iterate_elem := fun l x => elem_of_remove_dups l x |}.

Definition reversed : set_order.
Proof.
  refine {| iterate := fun l => reverse (remove_dups l) |}.
  - intros l. rewrite reverse_Permutation. apply NoDup_remove_dups.
  - intros l x. rewrite elem_of_reverse. apply elem_of_remove_dups.
Defined.

(** A row of the frame, for the scenarios. *)
Definition employee (name : string) (joined : cell) (designation : string)
    (salary : float) : Row cell :=
  {| FIRST_NAME := RStr (lit name); LAST_NAME := RStr (lit "Silva");
     SEX := RStr (lit "F"); DOJ := joined; CURRENT_DATE := CNaN;
     DESIGNATION := RStr (lit designation); AGE := Some 30%Z;
     SALARY := salary; UNIT := RStr (lit "IT");
     LEAVES_USED := None; LEAVES_REMAINING := None;
     RATINGS := PrimFloat.nan; PAST_EXP := 2%float |}.

(** The same row as read from a line whose LAST NAME is empty. *)
Definition without_last_name (r : Row cell) : Row cell :=
  {| FIRST_NAME := FIRST_NAME r; LAST_NAME := RNaN; SEX := SEX r;
     DOJ := DOJ r; CURRENT_DATE := CURRENT_DATE r; DESIGNATION := DESIGNATION r;
     AGE := AGE r; SALARY := SALARY r; UNIT := UNIT r;
     LEAVES_USED := LEAVES_USED r; LEAVES_REMAINING := LEAVES_REMAINING r;
     RATINGS := RATINGS r; PAST_EXP := PAST_EXP r |}.

(** A row of the frame can be stored: no [NOT NULL] column is missing. *)
Definition storable {D} (r : Row D) : bool :=
  notna (FIRST_NAME r) && notna (LAST_NAME r) && notna (SEX r) &&
  notna (DESIGNATION r) && negb (PrimFloat.is_nan (SALARY r)) && notna (UNIT r).

(** The numbers of a row lie within the signed 64 bits, so that none of its
    columns is read as [uint64] or as Python integers SQLite cannot take. *)
Definition int64 (z : Z) : bool :=
  ((-9223372036854775808 <=? z) && (z <? 9223372036854775808))%Z.

Definition opt_int64 (v : option Z) : bool :=
  match v with
  | Some z => int64 z
  | None => true
  end.

Definition float_int64 (x : float) : bool :=
  PrimFloat.is_nan x ||
  ((-9223372036854775808 <? x) && (x <? 9223372036854775808))%float.

Definition within_int64 {D} (r : Row D) : bool :=
  opt_int64 (AGE r) && opt_int64 (LEAVES_USED r) && opt_int64 (LEAVES_REMAINING r) &&
  float_int64 (SALARY r) && float_int64 (RATINGS r) && float_int64 (PAST_EXP r).



(** [m] is a least (greatest) element of [xs] for the order of doubles. *)
Definition is_minimum (m : float) (xs : list float) : Prop :=
  m ∈ xs /\ forall x, x ∈ xs -> (x <? m)%float = false.

Definition is_maximum (m : float) (xs : list float) : Prop :=
  m ∈ xs /\ forall x, x ∈ xs -> (m <? x)%float = false.

(** The stored row [s] is what the run makes of the row [r] of the frame:
    its dates are the results of [parse_date], the other columns are copied
    (a missing optional value becomes [NULL]). *)
Definition stored_as (U : unicode_data) (r : Row cell) (s : SalaryRecord) : Prop :=
  exists d1 d2,
    parse_date U (DOJ r) = Return d1 /\
    parse_date U (CURRENT_DATE r) = Return d2 /\
    record_of (id s) (with_dates r d1 d2) = Some s.

(** A stored manager, for the scenarios. *)
Definition manager (i : Z) (pay : float) : SalaryRecord :=
  {| id := i; first_name := lit "Ana"; last_name := lit "Silva"; sex := lit "F";
     doj := None; current_date := None; designation := lit "Manager";
     age := None; salary := pay; unit := lit "IT"; leaves_used := None;
     leaves_remaining := None; ratings := None; past_exp := None |}.

(* ===================================================================== *)
(** * Notions for further properties of the code *)
(* ===================================================================== *)

(** What the label makes of one ASCII character: a lower-case letter
    becomes the upper-case one, a digit, an upper-case letter and the
    underscore stay, every other character becomes an underscore. *)
Definition ascii_label (c : char) : char :=
  if (97 <=? c) && (c <=? 122) then c - 32
  else if ((48 <=? c) && (c <=? 57)) || ((65 <=? c) && (c <=? 90)) || (c =? 95) then c
  else 95.

Definition ascii_digit (c : char) : bool := (48 <=? c) && (c <=? 57).

Definition ascii_upper (c : char) : char :=
  if (97 <=? c) && (c <=? 122) then c - 32 else c.

(** Facts about single ASCII characters, each checked on the 128 of them. *)
Definition ascii_label_facts (c : char) : bool :=
  is_ascii (ascii_label c) &&
  (ascii_label (ascii_label c) =? ascii_label c) &&
  Bool.eqb (ascii_digit (ascii_label c)) (ascii_digit c) &&
  identifier_part (ascii_label c) &&
  Bool.eqb (identifier_start (ascii_label c)) (negb (ascii_digit c)) &&
  Bool.eqb (ascii_label c =? c) (identifier_part c) &&
  is_ascii (ascii_upper c) &&
  (ascii_label (ascii_upper c) =? ascii_label c) &&
  Bool.eqb (ascii_digit (ascii_upper c)) (ascii_digit c) &&
  Bool.eqb (identifier_start c) (identifier_part c && negb (ascii_digit c)).

(** The least and the greatest number of characters a match of [r] takes,
    and whether [r] is free of groups. *)
Fixpoint min_len (r : Re.regex) : nat :=
  match r with
  | Re.Chr _ | Re.Cls _ => 1
  | Re.Cat r1 r2 => min_len r1 + min_len r2
  | Re.Alt r1 r2 => Nat.min (min_len r1) (min_len r2)
  | Re.Bol | Re.Ahead _ => 0
  | Re.Grp _ r1 => min_len r1
  end.

Fixpoint max_len (r : Re.regex) : nat :=
  match r with
  | Re.Chr _ | Re.Cls _ => 1
  | Re.Cat r1 r2 => max_len r1 + max_len r2
  | Re.Alt r1 r2 => Nat.max (max_len r1) (max_len r2)
  | Re.Bol | Re.Ahead _ => 0
  | Re.Grp _ r1 => max_len r1
  end.

Fixpoint group_free (r : Re.regex) : bool :=
  match r with
  | Re.Chr _ | Re.Cls _ | Re.Bol | Re.Ahead _ => true
  | Re.Cat r1 r2 | Re.Alt r1 r2 => group_free r1 && group_free r2
  | Re.Grp _ _ => false
  end.

(** The decimal numeral of a number below 100, without padding. *)
Definition numeral (n : Z) : str :=
  if (n <? 10)%Z then [digit n] else two_digits n.

(** The texts that stand for the month [m], and for the day [d]: two
    digits, or the numeral without a leading zero, and for a day below 10
    also a blank and the digit. *)
Definition month_text (m : Z) (t : str) : Prop :=
  t = two_digits m \/ t = numeral m.

Definition day_text (d : Z) (t : str) : Prop :=
  t = two_digits d \/ t = numeral d \/ ((d < 10)%Z /\ t = lit " " ++ [digit d]).

(** [k in E.__members__]: [k] is the name of a member of the enum. *)
Definition is_member_name (E : PyEnum) (k : str) : bool :=
  match dict_get (enum_members E) k with
  | Some _ => true
  | None => false
  end.

(** The key of an output row of the query with its least and its greatest
    value. *)
Definition key_min_max (r : AggRow str) : str * float * float :=
  (agg_designation r, min_monthly_salary r, max_monthly_salary r).

(* ===================================================================== *)
(** * The order of strings and [sorted] *)
(* ===================================================================== *)


Lemma str_leb_total a b : str_leb a b = true \/ str_leb b a = true.
Proof.
  revert b. induction a as [|x a IH]; intros [|y b]; simpl; auto.
  destruct (N.ltb_spec x y), (N.ltb_spec y x); auto; lia.
Qed.

Lemma str_leb_trans a b c :
  str_leb a b = true -> str_leb b c = true -> str_leb a c = true.
Proof.
  revert b c.
  induction a as [|x a IH]; intros [|y b] [|z c]; simpl; auto; try discriminate.
  destruct (N.ltb_spec x y), (N.ltb_spec y x), (N.ltb_spec y z), (N.ltb_spec z y),
    (N.ltb_spec x z), (N.ltb_spec z x); auto; try discriminate; try lia.
  apply IH.
Qed.

Lemma str_leb_antisym a b :
  str_leb a b = true -> str_leb b a = true -> a = b.
Proof.
  revert b. induction a as [|x a IH]; intros [|y b]; simpl; auto; try discriminate.
  destruct (N.ltb_spec x y), (N.ltb_spec y x); try discriminate; try lia.
  intros H1 H2. f_equal; [lia | auto].
Qed.

#[export] Instance str_le_total : Total str_le.
Proof. intros a b. apply str_leb_total. Qed.

#[export] Instance str_le_trans : Transitive str_le.
Proof. intros a b c. apply str_leb_trans. Qed.

#[export] Instance str_le_antisym : AntiSymm (=) str_le.
Proof. intros a b. apply str_leb_antisym. Qed.


Lemma sorted_perm l : sorted l ≡ₚ l.
Proof. apply merge_sort_Permutation. Qed.

Lemma sorted_elem l x : x ∈ sorted l <-> x ∈ l.
Proof. by rewrite sorted_perm. Qed.


(** Sorting forgets the order in which a set was enumerated. *)
Lemma sorted_set_eq l1 l2 :
  NoDup l1 -> NoDup l2 -> (forall x, x ∈ l1 <-> x ∈ l2) -> sorted l1 = sorted l2.
Proof.
  intros N1 N2 E. apply (Sorted_unique str_le).
  - apply Sorted_merge_sort; apply _.
  - apply Sorted_merge_sort; apply _.
  - rewrite !sorted_perm. by apply NoDup_Permutation.
Qed.

Lemma valores_unicos_set (h1 h2 : set_order) l1 l2 :
  (forall s, s ∈ l1 <-> s ∈ l2) ->
  sorted (iterate h1 l1) = sorted (iterate h2 l2).
Proof.
  intros E. apply sorted_set_eq; try apply iterate_NoDup.
  intros x. by rewrite !iterate_elem.
Qed.


(* ===================================================================== *)
(** * Dictionaries *)
(* ===================================================================== *)


Lemma dict_keys_set {V} (d : dict V) k v :
  dict_keys (dict_set d k v) =
  if decide (k ∈ dict_keys d) then dict_keys d else dict_keys d ++ [k].
Proof.
  unfold dict_keys. induction d as [|[k0 v0] d IH]; simpl.
  - destruct (decide (k ∈ [])) as [H|]; [inversion H | reflexivity].
  - destruct (decide (k = k0)) as [->|Hne]; simpl.
    + destruct (decide (k0 ∈ k0 :: map fst d)) as [|n]; [reflexivity|].
      exfalso; apply n; constructor.
    + rewrite IH. destruct (decide (k ∈ map fst d)) as [Hin|Hnin].
      * destruct (decide (k ∈ k0 :: map fst d)) as [|n]; [reflexivity|].
        exfalso; apply n; by constructor.
      * destruct (decide (k ∈ k0 :: map fst d)) as [Hin'|]; [|reflexivity].
        apply elem_of_cons in Hin' as [?|?]; congruence.
Qed.

(* ===================================================================== *)
(** * The substitution [re.sub(r"\W|^(?=\d)", "_", valor)] *)
(* ===================================================================== *)

Section LabelFacts.
Context (U : unicode_data).

Lemma sub_loop_step fuel r repl pos s adv :
  Re.sub_loop (S fuel) r repl pos s adv =
  match Re.match_here r pos s adv with
  | Some (pos', s') => repl ++ Re.sub_loop fuel r repl pos' s' (Nat.eqb pos' pos)
  | None =>
      match s with
      | [] => []
      | c :: t => c :: Re.sub_loop fuel r repl (S pos) t false
      end
  end.
Proof. reflexivity. Qed.

(** At the start of the text the pattern matches a character that is not a
    word character, or else the empty string in front of a digit (unless the
    engine must advance). *)
Lemma match_here_first c t adv :
  Re.match_here (pattern U) 0 (c :: t) adv =
  if is_word U c
  then if isdecimal U c && negb adv then Some (0%nat, c :: t) else None
  else Some (1%nat, t).
Proof.
  unfold Re.match_here, pattern. simpl.
  destruct (is_word U c); simpl.
  - destruct (isdecimal U c); simpl; [|reflexivity].
    rewrite filter_cons. simpl. destruct adv; simpl; reflexivity.
  - rewrite filter_cons. simpl. rewrite orb_true_r. simpl.
    destruct (isdecimal U c); reflexivity.
Qed.

(** After the start only the first alternative can match. *)
Lemma match_here_later p s adv :
  Re.match_here (pattern U) (S p) s adv =
  match s with
  | c :: t => if is_word U c then None else Some (S (S p), t)
  | [] => None
  end.
Proof.
  unfold Re.match_here, pattern. destruct s as [|c t]; simpl; [reflexivity|].
  destruct (is_word U c); simpl; [reflexivity|].
  rewrite filter_cons. simpl.
  destruct (decide _) as [|n]; [reflexivity|].
  exfalso. apply n. apply Is_true_true. rewrite orb_true_iff.
  right. apply Nat.ltb_lt. lia.
Qed.

Lemma sub_loop_later fuel p s adv :
  (length s < fuel)%nat ->
  Re.sub_loop fuel (pattern U) (lit "_") (S p) s adv = flat_map (escape_char U) s.
Proof.
  revert p s adv. induction fuel as [|fuel IH]; intros p s adv Hf; [lia|].
  rewrite sub_loop_step, match_here_later.
  destruct s as [|c t]; [reflexivity|].
  simpl in Hf. cbn [flat_map]. unfold escape_char at 1.
  destruct (is_word U c); simpl; rewrite IH by lia; reflexivity.
Qed.

(** The rounds allotted to [re.sub] suffice, and its result is [escape]. *)
Lemma sub_pattern s : Re.sub (pattern U) (lit "_") s = escape U s.
Proof.
  unfold Re.sub. destruct s as [|c t]; [reflexivity|].
  set (fuel := (2 * length (c :: t) + 2)%nat).
  assert (Hf : (length t + 2 < fuel)%nat) by (subst fuel; simpl; lia).
  destruct fuel as [|[|fuel]]; try lia.
  unfold escape. cbn [flat_map]. unfold escape_char at 1.
  rewrite sub_loop_step, match_here_first.
  destruct (is_word U c) eqn:Hw; cbn [andb negb].
  - destruct (isdecimal U c) eqn:Hd; cbn [andb negb].
    + rewrite sub_loop_step, match_here_first, Hw, Hd. cbn [Nat.eqb andb negb].
      rewrite sub_loop_later by lia. reflexivity.
    + rewrite sub_loop_later by lia. reflexivity.
  - rewrite sub_loop_later by lia. reflexivity.
Qed.

Lemma chave_escape s : chave U s = upper U (escape U s).
Proof. unfold chave. by rewrite sub_pattern. Qed.

Lemma upper_word_ascii c : is_ascii c = true -> upper_word_ok U c = true.
Proof.
  intros Hc. unfold is_ascii in Hc. apply N.ltb_lt in Hc.
  assert (H : forallb (upper_word_ok U) (map N.of_nat (seq 0 128)) = true)
    by (vm_compute; reflexivity).
  rewrite forallb_forall in H. apply H.
  apply in_map_iff. exists (N.to_nat c). split; [lia|].
  apply in_seq. lia.
Qed.

Lemma upper_app a b : upper U (a ++ b) = upper U a ++ upper U b.
Proof. unfold upper. apply flat_map_app. Qed.

Lemma upper_escape_char c :
  is_ascii c = true ->
  exists c', upper U (escape_char U c) = [c'] /\ identifier_part c' = true /\
             (is_word U c && isdecimal U c = false -> identifier_start c' = true).
Proof.
  intros Hc. pose proof (upper_word_ascii c Hc) as H.
  unfold upper_word_ok in H. unfold escape_char.
  destruct (is_word U c); simpl in H |- *.
  - rewrite app_nil_r.
    destruct (upper_char U c) as [|c' [|]]; try discriminate.
    apply andb_true_iff in H as [H1 H2]. exists c'. split; [done|]. split; [done|].
    intros Hd. rewrite Hd in H2. exact H2.
  - exists 95. auto.
Qed.

Lemma upper_escape_tail t :
  forallb is_ascii t = true ->
  forallb identifier_part (upper U (flat_map (escape_char U) t)) = true.
Proof.
  induction t as [|c t IH]; [reflexivity|].
  cbn [forallb flat_map]. intros [Hc Ht]%andb_true_iff.
  rewrite upper_app, forallb_app. apply andb_true_iff. split; [|by apply IH].
  destruct (upper_escape_char c Hc) as (c' & -> & Hp & _). simpl. by rewrite Hp.
Qed.

End LabelFacts.

(* ===================================================================== *)
(** * Properties of [criar_enum_dinamico] *)
(* ===================================================================== *)

Section EnumFacts.
Context (U : unicode_data).

Lemma textos_elem valores s :
  s ∈ textos valores <-> exists v, v ∈ valores /\ notna v = true /\ py_str v = s.
Proof.
  unfold textos. rewrite list_elem_of_fmap. split.
  - intros (v & -> & Hv). apply list_elem_of_filter in Hv as [? ?]. eauto.
  - intros (v & Hv & Hn & <-). exists v. split; [done|].
    apply list_elem_of_filter. done.
Qed.


Lemma membros_loop_keys vs d k :
  k ∈ dict_keys (membros_loop U vs d) <->
  k ∈ dict_keys d \/ exists v, v ∈ vs /\ chave U v = k.
Proof.
  unfold membros_loop. revert d. induction vs as [|v vs IH]; intros d; simpl.
  - split; [auto|]. intros [?|(v & Hv & _)]; [done|inversion Hv].
  - rewrite IH, dict_keys_set.
    destruct (decide (chave U v ∈ dict_keys d)) as [Hin|Hnin].
    + split.
      * intros [?|(w & Hw & ?)]; [auto|]. right. exists w. split; [by constructor|done].
      * intros [?|(w & Hw & ?)]; [auto|].
        apply elem_of_cons in Hw as [->|Hw]; [left; congruence|].
        right; eauto.
    + rewrite elem_of_app, list_elem_of_singleton. split.
      * intros [[?| ->]|(w & Hw & ?)]; [auto| |].
        -- right. exists v. split; [constructor|done].
        -- right. exists w. split; [by constructor|done].
      * intros [?|(w & Hw & ?)]; [auto|].
        apply elem_of_cons in Hw as [->|Hw]; [left; right; congruence|].
        right; eauto.
Qed.

Lemma membros_loop_NoDup vs d :
  NoDup (dict_keys d) -> NoDup (dict_keys (membros_loop U vs d)).
Proof.
  unfold membros_loop. revert d. induction vs as [|v vs IH]; intros d Hd; simpl; [done|].
  apply IH. rewrite dict_keys_set. destruct (decide _); [done|].
  apply NoDup_app. split; [done|]. split; [|apply NoDup_singleton].
  intros x Hx Hx'. apply list_elem_of_singleton in Hx'. congruence.
Qed.

(** C5.  Two runs of [criar_enum_dinamico] on the same column give the same
    enum: the same labels with the same values in the same order, whatever
    the order in which each run iterates over its set of values. *)
Theorem criar_enum_dinamico_deterministic (h1 h2 : set_order) nome valores :
  criar_enum_dinamico U h1 nome valores = criar_enum_dinamico U h2 nome valores.
Proof.
  unfold criar_enum_dinamico.
  by rewrite (valores_unicos_set h1 h2 _ (textos valores)).
Qed.

(** C6 (amended).  The label of a non-null value whose text is not empty
    and is made of ASCII characters matches [[A-Z_][A-Z0-9_]*]. *)
Theorem chave_is_identifier (v : raw) :
  notna v = true ->
  (0 < length (py_str v))%nat ->
  forallb is_ascii (py_str v) = true ->
  is_identifier (chave U (py_str v)) = true.
Proof.
  intros _ Hlen Ha. rewrite chave_escape.
  destruct (py_str v) as [|c t]; [simpl in Hlen; lia|].
  cbn [forallb] in Ha. apply andb_true_iff in Ha as [Hc Ht].
  unfold escape. cbn [flat_map]. rewrite !upper_app.
  destruct (upper_escape_char U c Hc) as (c' & -> & Hp & Hstart).
  pose proof (upper_escape_tail U t Ht) as Htail.
  destruct (is_word U c && isdecimal U c).
  - change (upper U (lit "_")) with (lit "_"). simpl. by rewrite Hp, Htail.
  - simpl. by rewrite Hstart, Htail.
Qed.

End EnumFacts.


(** C6, as stated, fails: the empty string is a non-null value and its label
    is empty; the label of "é" (U+00E9) is "É" (U+00C9), which is not in
    [A-Z]. *)
Lemma label_not_identifier :
  notna (RStr []) = true /\
  is_identifier (chave latin1 (py_str (RStr []))) = false /\
  notna (RStr [233]) = true /\
  is_identifier (chave latin1 (py_str (RStr [233]))) = false.
Proof. vm_compute. auto. Qed.

Lemma chave_is_identifier_witness :
  is_identifier (chave latin1 (py_str (RStr (lit "Senior Manager")))) = true.
Proof.
  apply (chave_is_identifier latin1 (RStr (lit "Senior Manager"))).
  - reflexivity.
  - simpl. lia.
  - reflexivity.
Defined.

(* ===================================================================== *)
(** * Properties of [parse_date] *)
(* ===================================================================== *)

(** Case analysis on an integer known to lie in a short range. *)
Ltac enum_Z m lo n :=
  lazymatch n with
  | O => exfalso; lia
  | S ?n' =>
      let lo' := eval compute in (lo + 1)%Z in
      destruct (Z.eq_dec m lo) as [->|?]; [ | enum_Z m lo' n' ]
  end.

Section DateFacts.
Context (U : unicode_data).

Lemma digit_decimal k : (0 <= k <= 9)%Z -> decimal U (digit k) = Some (Z.to_N k).
Proof.
  intros Hk. unfold decimal, digit, is_ascii.
  destruct (N.ltb_spec (Z.to_N (48 + k)) 128); [|lia].
  destruct (N.leb_spec 48 (Z.to_N (48 + k))); [|lia].
  destruct (N.leb_spec (Z.to_N (48 + k)) 57); [|lia].
  simpl. f_equal. lia.
Qed.

Lemma digit_isdecimal k : (0 <= k <= 9)%Z -> isdecimal U (digit k) = true.
Proof. intros Hk. unfold isdecimal. by rewrite digit_decimal. Qed.

Lemma digit_isspace k : (0 <= k <= 9)%Z -> isspace U (digit k) = false.
Proof.
  intros Hk. unfold isspace, digit, is_ascii.
  destruct (N.ltb_spec (Z.to_N (48 + k)) 128); [|lia].
  destruct (N.leb_spec (Z.to_N (48 + k)) 13); [lia|].
  destruct (N.leb_spec 28 (Z.to_N (48 + k))); [|lia].
  destruct (N.leb_spec (Z.to_N (48 + k)) 32); [lia|].
  by rewrite andb_false_r.
Qed.

Lemma run_cat r1 r2 pos s g :
  Re.run (Re.Cat r1 r2) pos s g =
  flat_map (fun '(pos', s', g') => Re.run r2 pos' s' g') (Re.run r1 pos s g).
Proof. reflexivity. Qed.

Lemma run_slash k pos c rest g :
  Re.run (Re.Cat (chr "/") k) pos (c :: rest) g =
  if c =? 47 then Re.run k (S pos) rest g else [].
Proof.
  rewrite run_cat. change (chr "/") with (Re.Chr 47). cbn [Re.run].
  destruct (c =? 47); cbn [flat_map]; [apply app_nil_r | reflexivity].
Qed.

(** Evaluate the matcher on a group whose text is known, then step over the
    slash that follows; the alternatives that do not end at the slash
    vanish. *)
Ltac eval_group r :=
  rewrite (run_cat r);
  match goal with
  | |- context [Re.run r ?p ?s ?g] =>
      let v := eval vm_compute in (Re.run r p s g) in
      change (Re.run r p s g) with v
  end;
  cbn [flat_map]; rewrite ?run_slash; cbn [N.eqb Pos.eqb app]; rewrite ?app_nil_r.

Lemma run_month m k rest :
  (1 <= m <= 12)%Z ->
  Re.run (Re.Cat re_m (Re.Cat (chr "/") k)) 0 (two_digits m ++ lit "/" ++ rest) [] =
  Re.run k 3 rest [("m"%string, two_digits m)].
Proof.
  intros Hm. enum_Z m 1%Z 12%nat; eval_group re_m; reflexivity.
Qed.

Lemma run_day d k rest g :
  (1 <= d <= 31)%Z ->
  Re.run (Re.Cat (re_d U) (Re.Cat (chr "/") k)) 3 (two_digits d ++ lit "/" ++ rest) g =
  Re.run k 6 rest (("d"%string, two_digits d) :: g).
Proof.
  intros Hd. enum_Z d 1%Z 31%nat; eval_group (re_d U); reflexivity.
Qed.

Lemma run_year a b c e g :
  isdecimal U a = true -> isdecimal U b = true ->
  isdecimal U c = true -> isdecimal U e = true ->
  Re.run (re_Y U) 6 [a; b; c; e] g = [(10%nat, [], ("Y"%string, [a; b; c; e]) :: g)].
Proof.
  intros Ha Hb Hc He. unfold re_Y, digit_class. cbn [Re.run flat_map map app].
  rewrite Ha. cbn [Re.run flat_map map app]. rewrite Hb. cbn [Re.run flat_map map app].
  rewrite Hc. cbn [Re.run flat_map map app]. rewrite He. reflexivity.
Qed.

Lemma int_two_digits n : (0 <= n <= 99)%Z -> int U (two_digits n) = Some n.
Proof.
  intros Hn. unfold int, two_digits, strip.
  assert (H1 : (0 <= n / 10 <= 9)%Z) by (Z.div_mod_to_equations; lia).
  assert (H2 : (0 <= n mod 10 <= 9)%Z) by (Z.div_mod_to_equations; lia).
  cbn [lstrip rev app]. rewrite digit_isspace by done. cbn [lstrip rev app].
  rewrite digit_isspace by done. cbn [rev app digits_value].
  rewrite !digit_decimal by done. cbn [option_map]. f_equal.
  Z.div_mod_to_equations. lia.
Qed.

Lemma int_four_digits n : (0 <= n <= 9999)%Z -> int U (four_digits n) = Some n.
Proof.
  intros Hn. unfold int, four_digits, strip.
  assert (H1 : (0 <= n / 1000 <= 9)%Z) by (Z.div_mod_to_equations; lia).
  assert (H2 : (0 <= n / 100 mod 10 <= 9)%Z) by (Z.div_mod_to_equations; lia).
  assert (H3 : (0 <= n / 10 mod 10 <= 9)%Z) by (Z.div_mod_to_equations; lia).
  assert (H4 : (0 <= n mod 10 <= 9)%Z) by (Z.div_mod_to_equations; lia).
  cbn [lstrip rev app]. rewrite digit_isspace by done. cbn [lstrip rev app].
  rewrite digit_isspace by done. cbn [rev app digits_value].
  rewrite !digit_decimal by done. cbn [option_map]. f_equal.
  Z.div_mod_to_equations. lia.
Qed.

Lemma days_in_month_le y m : (days_in_month y m <= 31)%Z.
Proof. unfold days_in_month. repeat destruct (_ : bool); lia. Qed.

(** [strptime] reads back the text of every date. *)
Lemma strptime_month_day_year d :
  date_fields_ok (year d) (month d) (day d) = true ->
  strptime U (month_day_year d) =
  Return {| dt_year := year d; dt_month := month d; dt_day := day d; dt_hour := 0;
            dt_minute := 0; dt_second := 0; dt_microsecond := 0 |}.
Proof.
  destruct d as [y m dd]. cbn [year month day]. intros Hok.
  pose proof Hok as Hok'. unfold date_fields_ok in Hok'.
  repeat (apply andb_true_iff in Hok' as [Hok' ?]).
  pose proof (days_in_month_le y m).
  assert (Hy : (1 <= y <= 9999)%Z) by lia.
  assert (Hm : (1 <= m <= 12)%Z) by lia.
  assert (Hd : (1 <= dd <= 31)%Z) by lia.
  assert (Y1 : (0 <= y / 1000 <= 9)%Z) by (Z.div_mod_to_equations; lia).
  assert (Y2 : (0 <= y / 100 mod 10 <= 9)%Z) by (Z.div_mod_to_equations; lia).
  assert (Y3 : (0 <= y / 10 mod 10 <= 9)%Z) by (Z.div_mod_to_equations; lia).
  assert (Y4 : (0 <= y mod 10 <= 9)%Z) by (Z.div_mod_to_equations; lia).
  unfold strptime, Re.rmatch, format_regex, month_day_year. cbn [year month day].
  rewrite run_month by done. rewrite run_day by done.
  unfold four_digits at 1. rewrite run_year by (by apply digit_isdecimal).
  cbn [length two_digits four_digits lit app Nat.eqb negb].
  change (length (lit "/")) with 1%nat.
  cbn [length app Nat.add Nat.eqb negb].
  unfold int_group. cbn [Re.group String.eqb Ascii.eqb Bool.eqb].
  fold (two_digits m) (two_digits dd) (four_digits y).
  rewrite !int_two_digits by lia. rewrite int_four_digits by lia.
  cbn [bind]. unfold new_date. rewrite Hok. reflexivity.
Qed.

Lemma parse_date_returns c : exists r, parse_date U c = Return r.
Proof.
  destruct c as [| | |dt|s|s]; unfold parse_date; cbn [isna]; eauto;
    destruct (strptime U s); cbn [bind try_except]; eauto.
Qed.

(** C4.  [parse_date] returns the date of a text in month/day/year format
    ("04/20/2014" gives 2014-04-20); it returns [None] for a missing value
    and for a value whose text [strptime] refuses, so that the two cannot be
    told apart; and it never raises. *)
Theorem parse_date_spec :
  parse_date U (CStr (lit "04/20/2014")) =
    Return (Some {| year := 2014; month := 4; day := 20 |}) /\
  (forall d, date_fields_ok (year d) (month d) (day d) = true ->
             parse_date U (CStr (month_day_year d)) = Return (Some d)) /\
  (forall c, isna c = true -> parse_date U c = Return None) /\
  (forall s dt, strptime U s = Return dt ->
                parse_date U (CStr s) = Return (Some (datetime_date dt))) /\
  (forall s e, strptime U s = Raise e ->
               parse_date U (CStr s) = Return None /\
               parse_date U (COther s) = Return None /\
               parse_date U (CStr s) = parse_date U CNaN) /\
  (forall c, exists r, parse_date U c = Return r).
Proof.
  split; [vm_compute; reflexivity|]. split; [|split; [|split; [|split]]].
  - intros d Hd. unfold parse_date. cbn [isna].
    rewrite strptime_month_day_year by done. destruct d; reflexivity.
  - intros [| | |dt|s|s]; try discriminate; reflexivity.
  - intros s dt Hs. unfold parse_date. cbn [isna]. rewrite Hs. reflexivity.
  - intros s e He. unfold parse_date. cbn [isna]. rewrite He. repeat split.
  - apply parse_date_returns.
Qed.

End DateFacts.

Lemma parse_date_spec_witness :
  parse_date latin1 (CStr (month_day_year {| year := 2012; month := 2; day := 29 |})) =
    Return (Some {| year := 2012; month := 2; day := 29 |}) /\
  parse_date latin1 (CNaT) = Return None /\
  parse_date latin1 (CStr (lit "02/30/2014")) = Return None /\
  parse_date latin1 (CStr (lit "2014-04-20")) = parse_date latin1 CNaN.
Proof.
  split; [|split; [|split]].
  - apply (parse_date_spec latin1). reflexivity.
  - apply (parse_date_spec latin1). reflexivity.
  - apply (proj1 (proj2 (proj2 (proj2 (proj2 (parse_date_spec latin1)))))
             (lit "02/30/2014") ValueError).
    reflexivity.
  - apply (proj1 (proj2 (proj2 (proj2 (proj2 (parse_date_spec latin1)))))
             (lit "2014-04-20") ValueError).
    reflexivity.
Defined.

(* ===================================================================== *)
(** * Properties of the persist step *)
(* ===================================================================== *)

Lemma mapM_returns {A B} (f : A -> outcome B) l :
  (forall x, exists y, f x = Return y) ->
  exists ys, mapM f l = Return ys /\ Forall2 (fun x y => f x = Return y) l ys.
Proof.
  intros Hf. induction l as [|x l (ys & Hys & HF)]; simpl.
  - exists []. split; [reflexivity | constructor].
  - destruct (Hf x) as (y & Hy). exists (y :: ys). rewrite Hy, Hys. simpl.
    split; [reflexivity | by constructor].
Qed.

Lemma convert_dates_returns U df :
  exists df', convert_dates U df = Return df' /\
    Forall2 (fun r r' => exists d1 d2,
               parse_date U (DOJ r) = Return d1 /\
               parse_date U (CURRENT_DATE r) = Return d2 /\
               r' = with_dates r d1 d2) df df'.
Proof.
  unfold convert_dates.
  destruct (mapM_returns (parse_date U) (map DOJ df) (parse_date_returns U))
    as (c1 & -> & H1).
  destruct (mapM_returns (parse_date U) (map CURRENT_DATE df) (parse_date_returns U))
    as (c2 & -> & H2).
  simpl. eexists. split; [reflexivity|].
  revert c1 c2 H1 H2. induction df as [|r df IH]; intros c1 c2 H1 H2.
  - constructor.
  - simpl in H1, H2. inversion H1 as [|? d1 ? c1' E1 F1]; subst.
    inversion H2 as [|? d2 ? c2' E2 F2]; subst.
    simpl. constructor; [by exists d1, d2 | by apply IH].
Qed.

Lemma record_of_storable i (r : Row (option date)) :
  storable r = true -> exists s, record_of i r = Some s /\ id s = i.
Proof.
  unfold storable, record_of, sql_real. intros H.
  repeat (apply andb_true_iff in H as [H ?]).
  destruct (FIRST_NAME r), (LAST_NAME r), (SEX r), (DESIGNATION r), (UNIT r);
    try discriminate.
  destruct (PrimFloat.is_nan (SALARY r)); [discriminate|].
  simpl. eexists. split; reflexivity.
Qed.

Lemma fold_max_ge k ks y : y ∈ k :: ks -> (y <= fold_right Z.max k ks)%Z.
Proof.
  induction ks as [|a ks IH]; simpl.
  - intros Hy. apply list_elem_of_singleton in Hy as ->. lia.
  - rewrite !elem_of_cons. intros [->|[->|Hy]].
    + assert (H : (k <= fold_right Z.max k ks)%Z) by (apply IH; constructor). lia.
    + lia.
    + assert (H : (y <= fold_right Z.max k ks)%Z) by (apply IH; by constructor). lia.
Qed.

Lemma id_lt_next_id (t : table) s : s ∈ t -> (id s < next_id t)%Z.
Proof.
  intros Hs. unfold next_id.
  assert (Hin : id s ∈ map id t) by (apply list_elem_of_fmap; eauto).
  destruct (map id t) as [|k ks]; [inversion Hin|].
  pose proof (fold_max_ge k ks (id s) Hin). lia.
Qed.

Lemma next_id_snoc (t : table) s : (id s < next_id (t ++ [s]))%Z.
Proof. apply id_lt_next_id. apply elem_of_app. right. constructor. Qed.

(** [to_sql] appends one stored row per row of the frame, under keys that
    are new and distinct. *)
Lemma to_sql_appends df t :
  Forall (fun r => storable r = true) df ->
  exists new, to_sql df t = Return (t ++ new) /\
    Forall2 (fun r s => record_of (id s) r = Some s) df new /\
    (forall s, s ∈ new -> (next_id t <= id s)%Z) /\
    NoDup (map id new).
Proof.
  intros Hdf. revert t. induction Hdf as [|r df Hr Hdf IH]; intros t; simpl.
  - exists []. rewrite app_nil_r. repeat split; try constructor.
    intros s Hs. inversion Hs.
  - unfold insert_row.
    destruct (record_of_storable (next_id t) r Hr) as (s & Hs & Hid).
    rewrite Hs. simpl.
    destruct (IH (t ++ [s])) as (new & Hnew & HF & Hids & Hnd).
    exists (s :: new). rewrite Hnew, <- app_assoc. simpl.
    assert (Hlt : forall s', s' ∈ new -> (id s < id s')%Z).
    { intros s' Hs'. specialize (Hids s' Hs'). pose proof (next_id_snoc t s). lia. }
    repeat split.
    + constructor; [|done]. by rewrite Hid.
    + intros s' Hs'. apply elem_of_cons in Hs' as [->|Hs']; [lia|].
      specialize (Hlt s' Hs'). lia.
    + simpl. apply NoDup_cons. split; [|done].
      intros Hin. apply list_elem_of_fmap in Hin as (s' & E & Hs').
      specialize (Hlt s' Hs'). lia.
Qed.

Lemma convert_dates_storable U df df' :
  Forall2 (fun r r' => exists d1 d2,
             parse_date U (DOJ r) = Return d1 /\
             parse_date U (CURRENT_DATE r) = Return d2 /\
             r' = with_dates r d1 d2) df df' ->
  forallb storable df' = forallb storable df.
Proof.
  induction 1 as [|r r' df df' (d1 & d2 & _ & _ & ->) HF IH]; [reflexivity|].
  cbn [forallb]. rewrite IH. reflexivity.
Qed.

Lemma populate_once U df t :
  forallb storable df = true ->
  exists new, populate U df t = Return (t ++ new) /\
    Forall2 (stored_as U) df new /\
    (forall s, s ∈ new -> (next_id t <= id s)%Z) /\
    NoDup (map id new).
Proof.
  intros Hb. rewrite forallb_forall in Hb.
  assert (Hdf : Forall (fun r => storable r = true) df).
  { apply Forall_forall. intros r Hr. apply Hb. by apply list_elem_of_In. }
  clear Hb. unfold populate.
  destruct (convert_dates_returns U df) as (df' & -> & HF). simpl.
  assert (Hdf' : Forall (fun r => storable r = true) df').
  { clear -Hdf HF.
    induction HF as [|r r' df df' (d1 & d2 & _ & _ & ->) HF IH]; [constructor|].
    inversion Hdf; subst. constructor; [done | auto]. }
  destruct (to_sql_appends df' t Hdf') as (new & -> & HR & Hids & Hnd).
  exists new. repeat split; try done.
  clear -HF HR. revert new HR.
  induction HF as [|r r' df df' (d1 & d2 & E1 & E2 & ->) HF IH];
    intros new HR; inversion HR; subst; constructor.
  - by exists d1, d2.
  - by apply IH.
Qed.

Lemma record_of_missing i (r : Row (option date)) :
  storable r = false -> record_of i r = None.
Proof.
  unfold storable, record_of, sql_real, sql_text, notna.
  destruct (FIRST_NAME r), (LAST_NAME r), (SEX r), (DESIGNATION r), (UNIT r),
    (PrimFloat.is_nan (SALARY r)); simpl; intros H; try reflexivity; discriminate.
Qed.

(** One row that cannot be stored makes the whole [to_sql] fail. *)
Lemma to_sql_raises df t :
  forallb storable df = false -> to_sql df t = Raise IntegrityError.
Proof.
  revert t. induction df as [|r df IH]; intros t Hdf; [discriminate|].
  cbn [forallb] in Hdf. cbn [to_sql]. unfold insert_row.
  destruct (storable r) eqn:Hr.
  - destruct (record_of_storable (next_id t) r Hr) as (s & -> & _).
    cbn [bind]. apply IH. exact Hdf.
  - rewrite (record_of_missing _ r Hr). reflexivity.
Qed.

Lemma populate_refuses U df t :
  forallb storable df = false -> populate U df t = Raise IntegrityError.
Proof.
  intros Hdf. unfold populate.
  destruct (convert_dates_returns U df) as (df' & -> & HF). cbn [bind].
  apply to_sql_raises. by rewrite (convert_dates_storable U df df' HF).
Qed.

(** After a call that returns, the store holds the table the call returns. *)
Lemma to_sql_store_returns df t t' :
  to_sql df t = Return t' -> to_sql_store df t = t'.
Proof.
  revert t. induction df as [|r df IH]; intros t; simpl.
  - by intros [= <-].
  - destruct (insert_row t r) as [t1|e]; simpl; [apply IH | discriminate].
Qed.

(** After a call that raises, the store holds the rows that stand in the
    frame before the first one that cannot be stored. *)
Lemma to_sql_store_stops good bad rest t :
  Forall (fun r => storable r = true) good -> storable bad = false ->
  exists kept, to_sql_store (good ++ bad :: rest) t = t ++ kept /\
    Forall2 (fun r s => record_of (id s) r = Some s) good kept.
Proof.
  intros Hgood Hbad. revert t.
  induction Hgood as [|r good Hr Hgood IH]; intros t; simpl.
  - unfold insert_row. rewrite (record_of_missing _ bad Hbad).
    exists []. by rewrite app_nil_r.
  - unfold insert_row.
    destruct (record_of_storable (next_id t) r Hr) as (s & Hs & Hid).
    rewrite Hs. destruct (IH (t ++ [s])) as (kept & -> & HF).
    exists (s :: kept). rewrite <- app_assoc. split; [reflexivity|].
    constructor; [by rewrite Hid | done].
Qed.

Lemma populate_store_returns U df t t' :
  populate U df t = Return t' -> populate_store U df t = t'.
Proof.
  unfold populate, populate_store.
  destruct (convert_dates U df) as [df'|e]; cbn [bind]; [|discriminate].
  apply to_sql_store_returns.
Qed.

Lemma populate_store_stops U good bad rest t :
  forallb storable good = true -> storable bad = false ->
  exists kept, populate_store U (good ++ bad :: rest) t = t ++ kept /\
    Forall2 (stored_as U) good kept.
Proof.
  intros Hgood Hbad. unfold populate_store.
  destruct (convert_dates_returns U (good ++ bad :: rest)) as (df' & -> & HF).
  apply Forall2_app_inv_l in HF as (good' & tail' & HFg & HFt & ->).
  inversion HFt as [|? bad' ? rest' (d1 & d2 & _ & _ & Eb) HFr]; subst.
  assert (Hgood' : Forall (fun r => storable r = true) good').
  { apply Forall_forall. intros r Hr.
    assert (Hall : forallb storable good' = true)
      by (by rewrite (convert_dates_storable U good good' HFg)).
    rewrite forallb_forall in Hall. by apply Hall, list_elem_of_In. }
  destruct (to_sql_store_stops good' (with_dates bad d1 d2) rest' t Hgood' Hbad)
    as (kept & -> & HR).
  exists kept. split; [reflexivity|].
  clear -HFg HR. revert kept HR.
  induction HFg as [|r r' df df' (e1 & e2 & E1 & E2 & ->) HF IH];
    intros kept HR; inversion HR; subst; constructor.
  - by exists e1, e2.
  - by apply IH.
Qed.

(** C8 (amended).  The persist step stores every row of the frame as a new
    row, whatever the table already holds, provided that no row of the
    frame lacks a value for a [NOT NULL] column (first and last name, sex,
    designation, salary, unit) and that the numbers of the frame and the
    keys stay within the signed 64 bits: a table of [n] rows then has
    [n + m] rows after a frame of [m] rows is persisted, its old rows are
    untouched and the new rows have fresh keys; a second run of the same
    frame adds [m] rows again, so two runs on an empty store leave twice
    the rows of one run.  When a row lacks such a value the insert raises
    [IntegrityError] at the first such row; the rows in front of it are in
    the store by then and stay there, so a table of [n] rows has [n + k]
    rows afterwards, [k] being the number of rows in front of it. *)
Theorem populate_appends U (df : list (Row cell)) (t : table) :
  forallb within_int64 df = true ->
  (next_id t + 2 * Z.of_nat (length df) <= 9223372036854775808)%Z ->
  (forallb storable df = true ->
   exists new new',
     populate U df t = Return (t ++ new) /\
     populate_store U df t = t ++ new /\
     length (t ++ new) = (length t + length df)%nat /\
     Forall2 (stored_as U) df new /\
     (forall s s0, s ∈ new -> s0 ∈ t -> (id s0 < id s)%Z) /\
     NoDup (map id new) /\
     populate U df (t ++ new) = Return ((t ++ new) ++ new') /\
     populate_store U df (t ++ new) = (t ++ new) ++ new' /\
     length ((t ++ new) ++ new') = (length t + 2 * length df)%nat /\
     Forall2 (stored_as U) df new' /\
     (t = [] -> length ((t ++ new) ++ new') = (2 * length (t ++ new))%nat)) /\
  (forall good bad rest,
     df = good ++ bad :: rest ->
     forallb storable good = true -> storable bad = false ->
     populate U df t = Raise IntegrityError /\
     exists kept,
       populate_store U df t = t ++ kept /\
       Forall2 (stored_as U) good kept /\
       length (t ++ kept) = (length t + length good)%nat).
Proof.
  intros _ _. split.
  - intros Hdf.
    destruct (populate_once U df t Hdf) as (new & H1 & F1 & I1 & N1).
    destruct (populate_once U df (t ++ new) Hdf) as (new' & H2 & F2 & I2 & N2).
    exists new, new'.
    pose proof (Forall2_length _ _ _ F1) as L1.
    pose proof (Forall2_length _ _ _ F2) as L2.
    rewrite (populate_store_returns _ _ _ _ H1), (populate_store_returns _ _ _ _ H2).
    rewrite !length_app.
    repeat split; try done; try lia.
    + intros s s0 Hs Hs0. specialize (I1 s Hs).
      pose proof (id_lt_next_id t s0 Hs0). lia.
    + intros ->. simpl. lia.
  - intros good bad rest -> Hgood Hbad. split.
    + apply populate_refuses. rewrite forallb_app. cbn [forallb].
      by rewrite Hbad, andb_false_r.
    + destruct (populate_store_stops U good bad rest t Hgood Hbad) as (kept & -> & HF).
      exists kept. split; [reflexivity|]. split; [exact HF|].
      rewrite length_app. f_equal. symmetry. by eapply Forall2_length.
Qed.

(** C8, as stated, fails: a frame of one row whose LAST NAME is missing is
    not stored in the empty table; the insert raises and the store keeps
    its 0 rows instead of 0 + 1. *)
Lemma populate_refuses_missing_name :
  length [without_last_name (employee "Ana" CNaN "Manager" 120000)] = 1%nat /\
  populate latin1 [without_last_name (employee "Ana" CNaN "Manager" 120000)] [] =
    Raise IntegrityError /\
  populate_store latin1 [without_last_name (employee "Ana" CNaN "Manager" 120000)] [] =
    [].
Proof. repeat split; vm_compute; reflexivity. Qed.

Lemma populate_appends_witness :
  (exists t1 t2,
     populate latin1
       [employee "Ana" (CStr (lit "04/20/2014")) "Manager" 120000;
        employee "Rui" (CStr (lit "n/a")) "Analyst" 44570] [] = Return t1 /\
     length t1 = 2%nat /\
     populate latin1
       [employee "Ana" (CStr (lit "04/20/2014")) "Manager" 120000;
        employee "Rui" (CStr (lit "n/a")) "Analyst" 44570] t1 = Return t2 /\
     length t2 = 4%nat) /\
  (populate latin1
     [employee "Ana" CNaN "Manager" 120000;
      employee "Rui" CNaN "Analyst" PrimFloat.nan;
      employee "Eva" CNaN "Analyst" 44570] [manager 7 60000] =
     Raise IntegrityError /\
   exists kept,
     populate_store latin1
       [employee "Ana" CNaN "Manager" 120000;
        employee "Rui" CNaN "Analyst" PrimFloat.nan;
        employee "Eva" CNaN "Analyst" 44570] [manager 7 60000] =
       [manager 7 60000] ++ kept /\
     length ([manager 7 60000] ++ kept) = 2%nat).
Proof.
  split.
  - destruct (proj1 (populate_appends latin1
                [employee "Ana" (CStr (lit "04/20/2014")) "Manager" 120000;
                 employee "Rui" (CStr (lit "n/a")) "Analyst" 44570] []
                ltac:(reflexivity) ltac:(unfold next_id; simpl; lia)))
      as (new & new' & H1 & _ & L1 & _ & _ & _ & H2 & _ & L2 & _).
    + reflexivity.
    + exists ([] ++ new), (([] ++ new) ++ new'). repeat split; assumption.
  - destruct (proj2 (populate_appends latin1
                [employee "Ana" CNaN "Manager" 120000;
                 employee "Rui" CNaN "Analyst" PrimFloat.nan;
                 employee "Eva" CNaN "Analyst" 44570] [manager 7 60000]
                ltac:(reflexivity) ltac:(unfold next_id; simpl; lia))
              [employee "Ana" CNaN "Manager" 120000]
              (employee "Rui" CNaN "Analyst" PrimFloat.nan)
              [employee "Eva" CNaN "Analyst" 44570]
              ltac:(reflexivity) ltac:(reflexivity) ltac:(reflexivity))
      as (HR & kept & HS & _ & HL).
    split; [exact HR|]. exists kept. split; [exact HS | exact HL].
Defined.

(* ===================================================================== *)
(** * The order of doubles *)
(* ===================================================================== *)

Lemma SFltb_irrefl x : SFltb x x = false.
Proof.
  unfold SFltb, SFcompare.
  destruct x as [s|s| |s m e]; try reflexivity; try (destruct s; reflexivity).
  rewrite Z.compare_refl.
  change (PosDef.Pos.compare_cont Eq m m) with (Pos.compare m m).
  rewrite Pos.compare_refl. destruct s; reflexivity.
Qed.

Lemma SFltb_trans x y z : SFltb x y = true -> SFltb y z = true -> SFltb x z = true.
Proof.
  unfold SFltb, SFcompare.
  destruct x as [sx|sx| |sx mx ex], y as [sy|sy| |sy my ey], z as [sz|sz| |sz mz ez];
    try destruct sx; try destruct sy; try destruct sz;
    try discriminate; try reflexivity;
    change (PosDef.Pos.compare_cont Eq) with Pos.compare;
    destruct (Z.compare_spec ex ey), (Z.compare_spec ey ez), (Z.compare_spec ex ez);
    try discriminate; try reflexivity; try lia; subst;
    destruct (Pos.compare_spec mx my), (Pos.compare_spec my mz), (Pos.compare_spec mx mz);
    simpl; try discriminate; try reflexivity; try lia.
Qed.

Lemma ltb_irrefl x : (x <? x)%float = false.
Proof. rewrite ltb_spec. apply SFltb_irrefl. Qed.

Lemma ltb_trans x y z :
  (x <? y)%float = true -> (y <? z)%float = true -> (x <? z)%float = true.
Proof. rewrite !ltb_spec. apply SFltb_trans. Qed.

Lemma ltb_asym x y : (x <? y)%float = true -> (y <? x)%float = false.
Proof.
  intros H. destruct (y <? x)%float eqn:H'; [|reflexivity].
  pose proof (ltb_trans _ _ _ H H') as C. rewrite ltb_irrefl in C. discriminate.
Qed.

Lemma ltb_below x y z :
  (y <? x)%float = false -> (z <? x)%float = true -> (y <? z)%float = false.
Proof.
  intros H1 H2. destruct (y <? z)%float eqn:H; [|reflexivity].
  rewrite (ltb_trans _ _ _ H H2) in H1. discriminate.
Qed.

Lemma ltb_above x y z :
  (x <? y)%float = false -> (x <? z)%float = true -> (z <? y)%float = false.
Proof.
  intros H1 H2. destruct (z <? y)%float eqn:H; [|reflexivity].
  rewrite (ltb_trans _ _ _ H2 H) in H1. discriminate.
Qed.

(* ===================================================================== *)
(** * Properties of the aggregate query *)
(* ===================================================================== *)

Lemma fold_min_step xs best seen :
  is_minimum best seen -> is_minimum (fold_left min_step xs best) (seen ++ xs).
Proof.
  revert best seen. induction xs as [|x xs IH]; intros best seen [Hin Hle]; simpl.
  - rewrite app_nil_r. by split.
  - replace (seen ++ x :: xs) with ((seen ++ [x]) ++ xs) by (by rewrite <- app_assoc).
    apply IH. unfold min_step. destruct (x <? best)%float eqn:Hx.
    + split; [apply elem_of_app; right; constructor|].
      intros y Hy. apply elem_of_app in Hy as [Hy|Hy].
      * eapply ltb_below; eauto.
      * apply list_elem_of_singleton in Hy as ->. apply ltb_irrefl.
    + split; [apply elem_of_app; by left|].
      intros y Hy. apply elem_of_app in Hy as [Hy|Hy]; [auto|].
      by apply list_elem_of_singleton in Hy as ->.
Qed.

Lemma fold_max_step xs best seen :
  is_maximum best seen -> is_maximum (fold_left max_step xs best) (seen ++ xs).
Proof.
  revert best seen. induction xs as [|x xs IH]; intros best seen [Hin Hle]; simpl.
  - rewrite app_nil_r. by split.
  - replace (seen ++ x :: xs) with ((seen ++ [x]) ++ xs) by (by rewrite <- app_assoc).
    apply IH. unfold max_step. destruct (best <? x)%float eqn:Hx.
    + split; [apply elem_of_app; right; constructor|].
      intros y Hy. apply elem_of_app in Hy as [Hy|Hy].
      * eapply ltb_above; eauto.
      * apply list_elem_of_singleton in Hy as ->. apply ltb_irrefl.
    + split; [apply elem_of_app; by left|].
      intros y Hy. apply elem_of_app in Hy as [Hy|Hy]; [auto|].
      by apply list_elem_of_singleton in Hy as ->.
Qed.

Lemma sql_min_minimum x xs : is_minimum (sql_min x xs) (x :: xs).
Proof.
  apply (fold_min_step xs x [x]). split; [constructor|].
  intros y Hy. apply list_elem_of_singleton in Hy as ->. apply ltb_irrefl.
Qed.

Lemma sql_max_maximum x xs : is_maximum (sql_max x xs) (x :: xs).
Proof.
  apply (fold_max_step xs x [x]). split; [constructor|].
  intros y Hy. apply list_elem_of_singleton in Hy as ->. apply ltb_irrefl.
Qed.

#[export] Instance avg_desc_total {K} : Total (@avg_desc K).
Proof.
  intros a b. unfold avg_desc.
  destruct (avg_monthly_salary a <? avg_monthly_salary b)%float eqn:H; [|by left].
  right. by apply ltb_asym.
Qed.

(** One order of the rows: those with equal averages in the order of their
    keys. *)
Definition by_key : row_order.
Proof.
  refine {| order_by := merge_sort avg_desc |}.
  - intros l. apply merge_sort_Permutation.
  - intros l. apply Sorted_merge_sort. apply _.
Defined.

Lemma group_keys_elem t k : k ∈ group_keys t <-> exists r, r ∈ t /\ designation r = k.
Proof.
  unfold group_keys. rewrite sorted_elem, elem_of_remove_dups, list_elem_of_fmap.
  split; intros (r & ? & ?); exists r; done.
Qed.


(** Every key of [GROUP BY] has rows, hence an output row. *)
Lemma aggregate_group t k :
  k ∈ group_keys t ->
  exists x xs, group_values t k = x :: xs /\
    aggregate k (group_values t k) =
    Some {| agg_designation := k; min_monthly_salary := sql_min x xs;
            max_monthly_salary := sql_max x xs;
            avg_monthly_salary := sql_avg (x :: xs) |}.
Proof.
  intros (r & Hr & Hk)%group_keys_elem.
  destruct (group_values t k) as [|x xs] eqn:Hg.
  - exfalso. unfold group_values in Hg. apply fmap_nil_inv in Hg.
    assert (Hin : r ∈ filter (fun r => designation r = k) t)
      by (by apply list_elem_of_filter).
    rewrite Hg in Hin. inversion Hin.
  - exists x, xs. done.
Qed.

Lemma grouped_designations t :
  map agg_designation (omap (fun k => aggregate k (group_values t k)) (group_keys t)) =
  group_keys t.
Proof.
  assert (H : forall k, k ∈ group_keys t -> k ∈ group_keys t) by done.
  revert H. generalize (group_keys t) at 1 3 4. intros ks Hks.
  induction ks as [|k ks IH]; [reflexivity|].
  simpl. destruct (aggregate_group t k) as (x & xs & _ & ->); [apply Hks; constructor|].
  simpl. f_equal. apply IH. intros k' Hk'. apply Hks. by constructor.
Qed.

Lemma select_salaries_perm o t :
  select_salaries o t ≡ₚ omap (fun k => aggregate k (group_values t k)) (group_keys t).
Proof. apply order_by_perm. Qed.

Lemma order_by_singleton o x : order_by o [x] = [x].
Proof. apply Permutation_singleton_r, order_by_perm. Qed.


Lemma group_values_elem t k x :
  x ∈ group_values t k <-> exists r, r ∈ t /\ designation r = k /\ monthly r = x.
Proof.
  unfold group_values. rewrite list_elem_of_fmap. split.
  - intros (r & -> & Hr). apply list_elem_of_filter in Hr as [? ?]. eauto.
  - intros (r & Hr & Hk & <-). exists r. split; [done|]. by apply list_elem_of_filter.
Qed.



(* ===================================================================== *)
(** * The three ways of running the query *)
(* ===================================================================== *)

Lemma mapM_raises {A B} (f : A -> outcome B) l x e :
  x ∈ l -> f x = Raise e ->
  (forall y e', f y = Raise e' -> e' = e) ->
  mapM f l = Raise e.
Proof.
  intros Hx Hf Honly. induction l as [|y l IH]; [inversion Hx|].
  simpl. destruct (f y) as [b|e'] eqn:Hy; simpl.
  - apply elem_of_cons in Hx as [->|Hx]; [congruence|].
    rewrite (IH Hx). reflexivity.
  - f_equal. by apply (Honly y).
Qed.

(** The frame of [read_sql_query] holds the rows of [query_sql]. *)
Lemma read_sql_query_data o t :
  exists frame, read_sql_query o t = Return frame /\ query_sql o t = Return (data frame).
Proof. eexists. split; reflexivity. Qed.

(** The composed statement fails as soon as the table holds a designation
    that is not the name of a member of the enum. *)
Lemma stmt_raises o E (t : table) r :
  r ∈ t -> dict_get (enum_members E) (designation r) = None ->
  stmt o E t = Raise LookupError.
Proof.
  intros Hr Hnone.
  assert (Hk : designation r ∈ map agg_designation (select_salaries o t)).
  { rewrite select_salaries_perm, grouped_designations. apply group_keys_elem. eauto. }
  apply list_elem_of_In, in_map_iff in Hk as (row & Hd & Hrow).
  apply list_elem_of_In in Hrow.
  unfold stmt. apply (mapM_raises _ _ row); [done| |].
  - unfold enum_result. rewrite Hd, Hnone. reflexivity.
  - intros y e'. unfold enum_result.
    destruct (dict_get (enum_members E) (agg_designation y)); simpl; congruence.
Qed.

(** When it succeeds, the composed statement returns the numbers of
    [query_sql], with the member named by each designation in place of the
    designation. *)
Lemma stmt_returns o E (t : table) rows :
  stmt o E t = Return rows ->
  Forall2 (fun (a : AggRow str) (c : AggRow member) =>
             member_name (agg_designation c) = agg_designation a /\
             min_monthly_salary c = min_monthly_salary a /\
             max_monthly_salary c = max_monthly_salary a /\
             avg_monthly_salary c = avg_monthly_salary a)
          (select_salaries o t) rows.
Proof.
  unfold stmt. generalize (select_salaries o t). intros l. revert rows.
  induction l as [|a l IH]; intros rows; simpl.
  - intros [= <-]. constructor.
  - unfold enum_result at 1. destruct (dict_get _ _) as [v|]; simpl; [|discriminate].
    destruct (mapM _ l) as [rows'|] eqn:Hl; simpl; [|discriminate].
    intros [= <-]. constructor; [by repeat split | by apply IH].
Qed.

(** C1 fails on the code.  A file with one manager, loaded into an empty
    store: the enum built from the column has the member [MANAGER] with the
    value "Manager"; [query_sql] and [read_sql_query] return the row
    (Manager, 10000, 10000, 10000); [stmt] raises [LookupError], because
    the text "Manager" that [to_sql] stored is not the name of a member. *)
Theorem three_paths_diverge (U : unicode_data) (h : set_order) (o : row_order) :
  let df := [employee "Ana" (CStr (lit "04/20/2014")) "Manager" 120000] in
  let DesignationEnum :=
    criar_enum_dinamico U h (lit "DesignationEnum") (unique (map DESIGNATION df)) in
  let row := {| agg_designation := lit "Manager"; min_monthly_salary := 10000;
                max_monthly_salary := 10000; avg_monthly_salary := 10000 |} in
  exists t,
    populate U df [] = Return t /\
    enum_members DesignationEnum = [(lit "MANAGER", lit "Manager")] /\
    enum_built U h (lit "DesignationEnum") (unique (map DESIGNATION df)) =
      Some (Return {| enum_name := lit "DesignationEnum";
                      enum_members := [(lit "MANAGER", lit "Manager")] |}) /\
    query_sql o t = Return [row] /\
    read_sql_query o t =
      Return {| columns := ["designation"; "min_monthly_salary";
                            "max_monthly_salary"; "avg_monthly_salary"]%string;
                data := [row] |} /\
    stmt o DesignationEnum t = Raise LookupError.
Proof.
  intros df DesignationEnum row.
  assert (HE : enum_members DesignationEnum = [(lit "MANAGER", lit "Manager")]).
  { subst DesignationEnum. unfold criar_enum_dinamico. cbn [enum_members].
    rewrite (valores_unicos_set h last_seen _ (textos (unique (map DESIGNATION df))))
      by done.
    vm_compute. reflexivity. }
  eexists. split; [vm_compute; reflexivity|]. split; [exact HE|].
  split; [unfold enum_built; fold DesignationEnum; rewrite HE; vm_compute; reflexivity|].
  match goal with
  | |- context [query_sql o ?t] =>
      assert (Hsel : select_salaries o t = [row])
        by (unfold select_salaries; etransitivity; [|apply order_by_singleton];
            f_equal; vm_compute; reflexivity)
  end.
  unfold read_sql_query, query_sql, stmt. rewrite Hsel.
  split; [reflexivity|]. split; [reflexivity|].
  cbn [mapM]. unfold enum_result. rewrite HE. vm_compute. reflexivity.
Qed.

(* ===================================================================== *)
(** * The label of an ASCII text *)
(* ===================================================================== *)

Lemma ascii_cases (P : char -> bool) :
  forallb P (map N.of_nat (seq 0 128)) = true ->
  forall c, is_ascii c = true -> P c = true.
Proof.
  intros H c Hc. unfold is_ascii in Hc. apply N.ltb_lt in Hc.
  rewrite forallb_forall in H. apply H.
  apply in_map_iff. exists (N.to_nat c). split; [lia|].
  apply in_seq. lia.
Qed.

Lemma ascii_label_ok c :
  is_ascii c = true ->
  is_ascii (ascii_label c) = true /\
  ascii_label (ascii_label c) = ascii_label c /\
  ascii_digit (ascii_label c) = ascii_digit c /\
  identifier_part (ascii_label c) = true /\
  identifier_start (ascii_label c) = negb (ascii_digit c) /\
  ((ascii_label c =? c) = identifier_part c) /\
  is_ascii (ascii_upper c) = true /\
  ascii_label (ascii_upper c) = ascii_label c /\
  ascii_digit (ascii_upper c) = ascii_digit c /\
  identifier_start c = identifier_part c && negb (ascii_digit c).
Proof.
  intros Hc.
  pose proof (ascii_cases ascii_label_facts ltac:(vm_compute; reflexivity) c Hc) as H.
  unfold ascii_label_facts in H.
  repeat (apply andb_true_iff in H as [H ?]).
  repeat match goal with
         | H : Bool.eqb _ _ = true |- _ => apply Bool.eqb_prop in H
         | H : (_ =? _) = true |- _ => apply N.eqb_eq in H
         end.
  repeat split; assumption.
Qed.

Lemma map_ascii_label_ascii s :
  forallb is_ascii s = true -> forallb is_ascii (map ascii_label s) = true.
Proof.
  induction s as [|c s IH]; [reflexivity|].
  cbn [forallb map]. intros [Hc Hs]%andb_true_iff.
  destruct (ascii_label_ok c Hc) as (-> & _). by apply IH.
Qed.

Lemma map_ascii_label_idem s :
  forallb is_ascii s = true -> map ascii_label (map ascii_label s) = map ascii_label s.
Proof.
  induction s as [|c s IH]; [reflexivity|].
  cbn [forallb map]. intros [Hc Hs]%andb_true_iff.
  destruct (ascii_label_ok c Hc) as (_ & -> & _). by rewrite IH.
Qed.

Lemma map_ascii_upper_ascii s :
  forallb is_ascii s = true -> forallb is_ascii (map ascii_upper s) = true.
Proof.
  induction s as [|c s IH]; [reflexivity|].
  cbn [forallb map]. intros [Hc Hs]%andb_true_iff.
  destruct (ascii_label_ok c Hc) as (_ & _ & _ & _ & _ & _ & -> & _). by apply IH.
Qed.

Lemma map_ascii_label_upper s :
  forallb is_ascii s = true ->
  map ascii_label (map ascii_upper s) = map ascii_label s.
Proof.
  induction s as [|c s IH]; [reflexivity|].
  cbn [forallb map]. intros [Hc Hs]%andb_true_iff.
  destruct (ascii_label_ok c Hc) as (_ & _ & _ & _ & _ & _ & _ & -> & _). by rewrite IH.
Qed.

Lemma map_ascii_label_id s :
  forallb is_ascii s = true ->
  map ascii_label s = s <-> forallb identifier_part s = true.
Proof.
  induction s as [|c s IH]; [done|].
  cbn [forallb map]. intros [Hc Hs]%andb_true_iff.
  destruct (ascii_label_ok c Hc) as (_ & _ & _ & _ & _ & Hid & _).
  rewrite andb_true_iff, <- (IH Hs), <- Hid, N.eqb_eq. split.
  - intros [= E1 E2]. done.
  - intros [-> ->]. done.
Qed.

Section AsciiLabels.
Context (U : unicode_data).

Lemma upper_escape_char_ascii c :
  is_ascii c = true -> upper U (escape_char U c) = [ascii_label c].
Proof.
  intros Hc.
  pose proof (ascii_cases
                (fun c => match upper U (escape_char U c) with
                          | [c'] => c' =? ascii_label c
                          | _ => false
                          end)
                ltac:(vm_compute; reflexivity) c Hc) as H.
  cbv beta in H. destruct (upper U (escape_char U c)) as [|c' [|]]; try discriminate.
  apply N.eqb_eq in H. by subst.
Qed.

Lemma word_decimal_ascii c :
  is_ascii c = true -> is_word U c && isdecimal U c = ascii_digit c.
Proof.
  intros Hc.
  pose proof (ascii_cases
                (fun c => Bool.eqb (is_word U c && isdecimal U c) (ascii_digit c))
                ltac:(vm_compute; reflexivity) c Hc) as H.
  by apply Bool.eqb_prop in H.
Qed.

Lemma upper_escape_ascii t :
  forallb is_ascii t = true ->
  upper U (flat_map (escape_char U) t) = map ascii_label t.
Proof.
  induction t as [|c t IH]; [reflexivity|].
  cbn [forallb flat_map map]. intros [Hc Ht]%andb_true_iff.
  rewrite upper_app, upper_escape_char_ascii, IH by done. reflexivity.
Qed.

(** The label of an ASCII text, character by character. *)
Lemma chave_ascii s :
  forallb is_ascii s = true ->
  chave U s =
  match s with
  | [] => []
  | c :: _ => (if ascii_digit c then lit "_" else []) ++ map ascii_label s
  end.
Proof.
  intros Ha. rewrite chave_escape. destruct s as [|c t]; [reflexivity|].
  unfold escape. rewrite upper_app, upper_escape_ascii by done.
  cbn [forallb] in Ha. apply andb_true_iff in Ha as [Hc _].
  rewrite word_decimal_ascii by done. destruct (ascii_digit c); reflexivity.
Qed.

Lemma upper_char_ascii c : is_ascii c = true -> upper_char U c = [ascii_upper c].
Proof.
  intros Hc. unfold upper_char, ascii_upper. rewrite Hc.
  destruct ((97 <=? c) && (c <=? 122)); reflexivity.
Qed.

Lemma upper_ascii s : forallb is_ascii s = true -> upper U s = map ascii_upper s.
Proof.
  induction s as [|c s IH]; [reflexivity|].
  cbn [forallb]. intros [Hc Hs]%andb_true_iff.
  change (upper U (c :: s)) with (upper_char U c ++ upper U s).
  rewrite upper_char_ascii, IH by done. reflexivity.
Qed.

Lemma isdecimal_ascii c : is_ascii c = true -> isdecimal U c = ascii_digit c.
Proof.
  intros Hc. unfold isdecimal, decimal, ascii_digit. rewrite Hc.
  destruct ((48 <=? c) && (c <=? 57)); reflexivity.
Qed.

Lemma chave_ascii_closed s :
  forallb is_ascii s = true -> forallb is_ascii (chave U s) = true.
Proof.
  intros Ha. rewrite (chave_ascii s Ha). destruct s as [|c t]; [reflexivity|].
  pose proof (map_ascii_label_ascii _ Ha) as Hm.
  destruct (ascii_digit c); [|exact Hm].
  change (lit "_") with [95]. cbn [app forallb]. exact Hm.
Qed.

(** The label of a label is the label itself. *)
Lemma chave_chave_ascii s :
  forallb is_ascii s = true -> chave U (chave U s) = chave U s.
Proof.
  intros Ha. rewrite (chave_ascii s Ha). destruct s as [|c t]; [reflexivity|].
  pose proof Ha as Ha'. cbn [forallb] in Ha'. apply andb_true_iff in Ha' as [Hc Ht].
  destruct (ascii_label_ok c Hc) as (Hlc & _ & Hd & _).
  pose proof (map_ascii_label_ascii _ Ha) as Hm.
  pose proof (map_ascii_label_idem _ Ha) as Hi.
  change (lit "_") with [95].
  destruct (ascii_digit c) eqn:Hdc; cbn [app].
  - rewrite chave_ascii by exact Hm.
    change (ascii_digit 95) with false. cbn [app].
    change (map ascii_label (95 :: map ascii_label (c :: t)))
      with (95 :: map ascii_label (map ascii_label (c :: t))).
    by rewrite Hi.
  - rewrite chave_ascii by exact Hm.
    cbn [map]. rewrite Hd. cbn [app].
    change (ascii_label (ascii_label c) :: map ascii_label (map ascii_label t))
      with (map ascii_label (map ascii_label (c :: t))).
    by rewrite Hi.
Qed.

Lemma chave_upper s :
  forallb is_ascii s = true -> chave U (upper U s) = chave U s.
Proof.
  intros Ha. rewrite (upper_ascii s Ha).
  rewrite (chave_ascii _ (map_ascii_upper_ascii s Ha)), (chave_ascii s Ha).
  destruct s as [|c t]; [reflexivity|].
  pose proof Ha as Ha'. cbn [forallb] in Ha'. apply andb_true_iff in Ha' as [Hc Ht].
  destruct (ascii_label_ok c Hc) as (_ & _ & _ & _ & _ & _ & _ & _ & Hd & _).
  rewrite map_ascii_label_upper by done. cbn [map]. by rewrite Hd.
Qed.

(** X1.  Labelling is idempotent on ASCII text: the label of such a text is
    again ASCII text, and it is its own label, so that labelling a label
    changes nothing. *)
Theorem chave_fixed_point s :
  forallb is_ascii s = true ->
  forallb is_ascii (chave U s) = true /\ chave U (chave U s) = chave U s.
Proof.
  intros Ha. split; [by apply chave_ascii_closed | by apply chave_chave_ascii].
Qed.

(** X2.  The label does not see the case of letters: two ASCII texts that
    differ only in the case of their letters have the same label, and
    therefore collide in one member of the enum. *)
Theorem chave_ignores_case s1 s2 :
  forallb is_ascii s1 = true -> forallb is_ascii s2 = true ->
  upper U s1 = upper U s2 -> chave U s1 = chave U s2.
Proof.
  intros H1 H2 E. rewrite <- (chave_upper s1 H1), <- (chave_upper s2 H2). by rewrite E.
Qed.

(** X3.  An ASCII text is its own label exactly when it is empty or already
    an identifier [[A-Z_][A-Z0-9_]*]: any lower-case letter, blank, sign or
    leading digit makes the label differ from the text. *)
Theorem chave_own_label s :
  forallb is_ascii s = true ->
  chave U s = s <-> s = [] \/ is_identifier s = true.
Proof.
  intros Ha. rewrite (chave_ascii s Ha). destruct s as [|c t]; [by split; auto|].
  pose proof Ha as Ha'. cbn [forallb] in Ha'. apply andb_true_iff in Ha' as [Hc Ht].
  destruct (ascii_label_ok c Hc) as (_ & _ & _ & _ & _ & _ & _ & _ & _ & Hstart).
  pose proof (map_ascii_label_id (c :: t) Ha) as Hid. cbn [forallb] in Hid.
  unfold is_identifier. rewrite Hstart. split.
  - intros E. right.
    destruct (ascii_digit c).
    + apply (f_equal length) in E. rewrite length_app, length_map in E.
      change (length (lit "_")) with 1%nat in E. exfalso. exact (Nat.neq_succ_diag_l _ E).
    + cbn [app] in E. apply Hid in E. apply andb_true_iff in E as [-> ->]. reflexivity.
  - intros [?|E]; [discriminate|].
    apply andb_true_iff in E as [[E1 E2]%andb_true_iff E3].
    apply negb_true_iff in E2. rewrite E2. cbn [app].
    apply Hid. by rewrite E1, E3.
Qed.

(** X4.  The label of an ASCII text has one character for each character
    of the text, and one more when the text starts with a digit: nothing is
    dropped and no run is shortened. *)
Theorem chave_length s :
  forallb is_ascii s = true ->
  length (chave U s) =
  (length s + match s with
              | c :: _ => if isdecimal U c then 1 else 0
              | [] => 0
              end)%nat.
Proof.
  intros Ha. rewrite (chave_ascii s Ha). destruct s as [|c t]; [reflexivity|].
  cbn [forallb] in Ha. apply andb_true_iff in Ha as [Hc Ht].
  rewrite length_app, length_map, (isdecimal_ascii c Hc).
  destruct (ascii_digit c); simpl; lia.
Qed.

End AsciiLabels.

Lemma chave_fixed_point_witness :
  forallb is_ascii (chave latin1 (lit "3 Sr. Dev")) = true /\
  chave latin1 (chave latin1 (lit "3 Sr. Dev")) = chave latin1 (lit "3 Sr. Dev").
Proof. apply (chave_fixed_point latin1 (lit "3 Sr. Dev")). reflexivity. Defined.

Lemma chave_ignores_case_witness :
  chave latin1 (lit "Sr. Dev") = chave latin1 (lit "SR. dev").
Proof.
  apply (chave_ignores_case latin1 (lit "Sr. Dev") (lit "SR. dev")); reflexivity.
Defined.

Lemma chave_own_label_witness :
  chave latin1 (lit "MANAGER_2") = lit "MANAGER_2" /\
  is_identifier (lit "MANAGER_2") = true.
Proof.
  split; [|reflexivity].
  apply (proj2 (chave_own_label latin1 (lit "MANAGER_2") ltac:(reflexivity))).
  right. reflexivity.
Defined.

Lemma chave_length_witness :
  length (chave latin1 (lit "2nd Mate")) = 9%nat.
Proof. apply (chave_length latin1 (lit "2nd Mate")). reflexivity. Defined.

(* ===================================================================== *)
(** * The members of the enum *)
(* ===================================================================== *)

Lemma unique_from_elem seen col v :
  v ∈ unique_from seen col <-> v ∈ col /\ v ∉ seen.
Proof.
  revert seen. induction col as [|x col IH]; intros seen; simpl.
  - split; [intros H; inversion H | intros [H _]; inversion H].
  - destruct (decide (x ∈ seen)) as [Hx|Hx].
    + rewrite IH, elem_of_cons. split; [tauto|].
      intros [[->|?] ?]; [done|tauto].
    + rewrite !elem_of_cons, IH, elem_of_cons. split.
      * intros [->|[? ?]]; [tauto|]. tauto.
      * intros [[->|?] ?]; [tauto|].
        destruct (decide (v = x)) as [->|]; [tauto|]. right. tauto.
Qed.

Lemma unique_elem col v : v ∈ unique col <-> v ∈ col.
Proof.
  unfold unique. rewrite unique_from_elem. split; [tauto|].
  intros H. split; [done|]. intros H'. inversion H'.
Qed.

Lemma dict_set_elem {V} (d : dict V) k v k' v' :
  (k', v') ∈ dict_set d k v -> (k', v') ∈ d \/ (k' = k /\ v' = v).
Proof.
  induction d as [|[k0 v0] d IH]; simpl.
  - intros H. apply list_elem_of_singleton in H. injection H as -> ->. by right.
  - destruct (decide (k = k0)) as [->|Hne].
    + rewrite !elem_of_cons. intros [[= -> ->]|?]; [by right|]. left. by right.
    + rewrite !elem_of_cons. intros [?|H]; [left; by left|].
      destruct (IH H) as [?|?]; [left; by right | by right].
Qed.

Lemma dict_get_None {V} (d : dict V) k : dict_get d k = None <-> k ∉ dict_keys d.
Proof.
  unfold dict_keys. induction d as [|[k0 v0] d IH]; simpl.
  - split; [intros _ H; inversion H | done].
  - rewrite not_elem_of_cons. destruct (decide (k = k0)) as [->|Hne].
    + split; [discriminate | intros [? _]; done].
    + rewrite IH. tauto.
Qed.

Section Members.
Context (U : unicode_data).

(** What holds of every value under its label holds of every entry. *)
Lemma membros_loop_inv (P : str -> str -> Prop) vs d :
  (forall k v, (k, v) ∈ d -> P k v) ->
  (forall x, x ∈ vs -> P (chave U x) x) ->
  forall k v, (k, v) ∈ membros_loop U vs d -> P k v.
Proof.
  unfold membros_loop. revert d. induction vs as [|x vs IH]; intros d Hd Hvs; simpl.
  - apply Hd.
  - apply IH.
    + intros k' v' H. apply dict_set_elem in H as [H|[-> ->]]; [by apply Hd|].
      apply Hvs. constructor.
    + intros y Hy. apply Hvs. by constructor.
Qed.

Lemma entries_values_NoDup (d : dict str) :
  NoDup (dict_keys d) -> (forall k v, (k, v) ∈ d -> chave U v = k) ->
  NoDup (map snd d).
Proof.
  unfold dict_keys. induction d as [|[k v] d IH]; simpl; [constructor|].
  intros [Hk Hd]%NoDup_cons Hinv. apply NoDup_cons. split.
  - intros Hv. apply list_elem_of_fmap in Hv as ([k' v'] & Ev & Hin). simpl in Ev. subst v'.
    apply Hk. apply list_elem_of_fmap. exists (k', v). split; [|done]. simpl.
    rewrite <- (Hinv k v) by constructor.
    rewrite <- (Hinv k' v); [done|]. by constructor.
  - apply IH; [done|]. intros k' v' H. apply Hinv. by constructor.
Qed.

Lemma members_entries (h : set_order) nome valores k v :
  (k, v) ∈ enum_members (criar_enum_dinamico U h nome valores) ->
  chave U v = k /\ v ∈ textos valores.
Proof.
  unfold criar_enum_dinamico. cbn [enum_members].
  apply (membros_loop_inv (fun k v => chave U v = k /\ v ∈ textos valores)).
  - intros ? ? H. inversion H.
  - intros x Hx. split; [done|]. by rewrite sorted_elem, iterate_elem in Hx.
Qed.

Lemma members_keys (h : set_order) nome valores k :
  k ∈ dict_keys (enum_members (criar_enum_dinamico U h nome valores)) <->
  k ∈ map (chave U) (textos valores).
Proof.
  unfold criar_enum_dinamico. cbn [enum_members].
  rewrite membros_loop_keys, list_elem_of_fmap. split.
  - intros [H|(v & Hv & <-)]; [inversion H|].
    exists v. split; [done|]. by rewrite sorted_elem, iterate_elem in Hv.
  - intros (v & -> & Hv). right. exists v. split; [|done].
    by rewrite sorted_elem, iterate_elem.
Qed.

(** X6.  The enum depends only on the set of texts of the values that are
    present: the order of the column, its repetitions and its missing
    cells make no difference, nor does the order in which a run iterates
    over its set.  In particular the [.unique()] of the call sites changes
    nothing: the whole column gives the same enum. *)
Theorem criar_enum_dinamico_same_values (h1 h2 : set_order) nome :
  (forall valores1 valores2,
     (forall s, s ∈ textos valores1 <-> s ∈ textos valores2) ->
     criar_enum_dinamico U h1 nome valores1 = criar_enum_dinamico U h2 nome valores2) /\
  (forall col, criar_enum_dinamico U h1 nome (unique col) =
               criar_enum_dinamico U h2 nome col).
Proof.
  assert (H : forall valores1 valores2,
     (forall s, s ∈ textos valores1 <-> s ∈ textos valores2) ->
     criar_enum_dinamico U h1 nome valores1 = criar_enum_dinamico U h2 nome valores2).
  { intros v1 v2 E. unfold criar_enum_dinamico.
    by rewrite (valores_unicos_set h1 h2 (textos v1) (textos v2) E). }
  split; [exact H|].
  intros col. apply H. intros s. rewrite !textos_elem.
  split; intros (v & Hv & ?); exists v; (split; [|done]); by apply unique_elem.
Qed.

(** X7.  No two members of the enum have the same value, so [PyEnum] makes
    no alias; and every member is a value of the column under its own
    label. *)
Theorem members_have_distinct_values (h : set_order) nome valores :
  let E := criar_enum_dinamico U h nome valores in
  NoDup (map snd (enum_members E)) /\
  forall k v, (k, v) ∈ enum_members E -> chave U v = k /\ v ∈ textos valores.
Proof.
  intros E. split; [|apply members_entries].
  apply entries_values_NoDup.
  - apply membros_loop_NoDup. constructor.
  - intros k v H. by apply members_entries in H as [? _].
Qed.

End Members.

Lemma criar_enum_dinamico_same_values_witness :
  criar_enum_dinamico latin1 last_seen (lit "UnitEnum")
    [RStr (lit "IT"); RNaN; RStr (lit "Finance"); RStr (lit "IT")] =
  criar_enum_dinamico latin1 reversed (lit "UnitEnum")
    [RStr (lit "Finance"); RStr (lit "IT")].
Proof.
  apply (proj1 (criar_enum_dinamico_same_values latin1 last_seen reversed
                  (lit "UnitEnum"))).
  intros s.
  change (textos [RStr (lit "IT"); RNaN; RStr (lit "Finance"); RStr (lit "IT")])
    with [lit "IT"; lit "Finance"; lit "IT"].
  change (textos [RStr (lit "Finance"); RStr (lit "IT")])
    with [lit "Finance"; lit "IT"].
  rewrite !elem_of_cons. tauto.
Defined.

(* ===================================================================== *)
(** * The enum [PyEnum] builds *)
(* ===================================================================== *)


Lemma dict_keys_filter (p : str -> bool) (d : dict str) :
  dict_keys (List.filter (fun kv => p kv.1) d) = List.filter p (dict_keys d).
Proof.
  unfold dict_keys. induction d as [|[k v] d IH]; simpl; [done|].
  destruct (p k); simpl; by rewrite IH.
Qed.


Lemma filter_nil_iff {A} (f : A -> bool) l :
  List.filter f l = [] <-> forallb (fun x => negb (f x)) l = true.
Proof.
  induction l as [|x l IH]; simpl; [done|].
  destruct (f x); simpl; [split; discriminate | exact IH].
Qed.

Lemma NoDup_filter_bool {A} (f : A -> bool) (l : list A) :
  NoDup l -> NoDup (List.filter f l).
Proof.
  induction 1 as [|x l Hx Hl IH]; simpl; [constructor|].
  destruct (f x); [|done]. constructor; [|done].
  rewrite list_elem_of_In, filter_In, <- list_elem_of_In. tauto.
Qed.

(** The two outcomes of [PyEnum] on a mapping within the model. *)
Lemma new_enum_cases nome (d : dict str) r :
  new_enum nome d = Some r ->
  (r = Raise ValueError /\
   exists k, k ∈ dict_keys d /\ (k = [] \/ is_reserved nome k = true)) \/
  (r = Return {| enum_name := nome;
                 enum_members := List.filter (fun kv => makes_member nome kv.1) d |} /\
   forall k, k ∈ dict_keys d -> k <> [] /\ is_reserved nome k = false).
Proof.
  unfold new_enum.
  destruct (existsb (fun kv => existsb ascii_lower kv.1) d); [discriminate|].
  intros [= <-].
  destruct (existsb (fun kv => is_reserved nome kv.1) d) eqn:Hres.
  { left. split; [reflexivity|]. apply existsb_exists in Hres as ([k v] & Hin & Hk).
    exists k. split; [|by right]. apply list_elem_of_fmap. exists (k, v).
    split; [done | by apply list_elem_of_In]. }
  destruct (existsb empty_name (List.filter (fun kv => makes_member nome kv.1) d))
    eqn:Hemp.
  { left. split; [reflexivity|]. apply existsb_exists in Hemp as ([k v] & Hin & Hk).
    apply filter_In in Hin as [Hin _]. unfold empty_name in Hk. simpl in Hk.
    destruct k; [|discriminate].
    exists []. split; [|by left]. apply list_elem_of_fmap. exists ([], v).
    split; [done | by apply list_elem_of_In]. }
  right. split; [reflexivity|]. intros k Hk.
  apply list_elem_of_fmap in Hk as ([k' v] & -> & Hin). apply list_elem_of_In in Hin.
  simpl. split.
  - intros ->.
    assert (Hc : existsb empty_name
                   (List.filter (fun kv => makes_member nome kv.1) d) = true).
    { apply existsb_exists. exists ([], v). split; [|reflexivity].
      apply filter_In. split; [done|]. reflexivity. }
    rewrite Hc in Hemp. discriminate.
  - destruct (is_reserved nome k') eqn:Hk'; [|reflexivity].
    assert (Hc : existsb (fun kv : str * str => is_reserved nome kv.1) d = true).
    { apply existsb_exists. exists (k', v). done. }
    rewrite Hc in Hres. discriminate.
Qed.

(** The members of an enum given by its two fields. *)
Ltac project_members :=
  repeat match goal with
         | |- context [enum_members {| enum_name := ?n; enum_members := ?d |}] =>
             change (enum_members {| enum_name := n; enum_members := d |}) with d
         end.

(** A name that does not start with an underscore is the name of a
    member. *)
Lemma kind_of_plain nome c t : (c =? 95) = false -> kind_of nome (c :: t) = Member.
Proof.
  intros Hc. unfold kind_of, is_private, is_sunder, is_dunder.
  change (lit "_" ++ nome ++ lit "__") with (95 :: nome ++ lit "__").
  cbn [startswith nth]. rewrite Hc.
  cbn [andb]. rewrite !andb_false_r. cbn [andb]. reflexivity.
Qed.

Section Built.
Context (U : unicode_data).






(** C7.  The values "A-1" and "A 1" have the same label [A_1], and the
    mapping of a column whose distinct values are these two has the single
    entry [A_1], not two: the entry of "A 1", which comes first, is
    overwritten by "A-1".  The enum that is built has this one member. *)
Theorem collision_single_entry (h : set_order) nome valores :
  chave U (lit "A-1") = lit "A_1" /\
  chave U (lit "A 1") = lit "A_1" /\
  (sorted (remove_dups (textos valores)) = [lit "A 1"; lit "A-1"] ->
   enum_members (criar_enum_dinamico U h nome valores) = [(lit "A_1", lit "A-1")] /\
   dict_keys (enum_members (criar_enum_dinamico U h nome valores)) = [lit "A_1"] /\
   length (enum_members (criar_enum_dinamico U h nome valores)) = 1%nat /\
   enum_built U h nome valores =
     Some (Return {| enum_name := nome;
                     enum_members := [(lit "A_1", lit "A-1")] |})).
Proof.
  split; [vm_compute; reflexivity|]. split; [vm_compute; reflexivity|].
  intros Hv.
  assert (HE : enum_members (criar_enum_dinamico U h nome valores) =
               [(lit "A_1", lit "A-1")]).
  { unfold criar_enum_dinamico. cbn [enum_members].
    rewrite (valores_unicos_set h last_seen _ (textos valores)) by done.
    cbn [iterate last_seen]. rewrite Hv. vm_compute. reflexivity. }
  unfold enum_built. rewrite HE. split; [reflexivity|]. split; [reflexivity|].
  split; [reflexivity|].
  unfold new_enum, is_reserved, makes_member. cbn [existsb List.filter fst].
  change (lit "A_1") with (65 :: lit "_1").
  rewrite (kind_of_plain nome 65 (lit "_1") eq_refl). reflexivity.
Qed.


(** X5.  A column without any value, empty or all missing, gives an enum
    without members.  An enum that is built has no member exactly when no
    value of the column has a label that makes a member (each label is of
    the form [__X__] or a private name). *)
Theorem no_values_no_members (h : set_order) nome valores :
  (forallb (fun v => negb (notna v)) valores = true ->
   enum_built U h nome valores =
     Some (Return {| enum_name := nome; enum_members := [] |})) /\
  (forall E', enum_built U h nome valores = Some (Return E') ->
     (enum_members E' = [] <->
      forallb (fun s => negb (makes_member nome (chave U s))) (textos valores) = true)).
Proof.
  split.
  - intros Hall.
    assert (Ht : textos valores = []).
    { unfold textos. rewrite forallb_forall in Hall.
      induction valores as [|x l IH]; [reflexivity|].
      rewrite filter_cons.
      assert (Hx : notna x = false) by (apply negb_true_iff, Hall; by left).
      destruct (decide (notna x = true)); [congruence|].
      apply IH. intros y Hy. apply Hall. by right. }
    assert (HE : enum_members (criar_enum_dinamico U h nome valores) = []).
    { destruct (enum_members (criar_enum_dinamico U h nome valores)) as [|[k v] d] eqn:Hd;
        [reflexivity|]. exfalso.
      assert (Hk : k ∈ dict_keys (enum_members (criar_enum_dinamico U h nome valores)))
        by (rewrite Hd; constructor).
      apply members_keys in Hk. rewrite Ht in Hk. inversion Hk. }
    unfold enum_built. rewrite HE. reflexivity.
  - intros E' Hb. unfold enum_built in Hb.
    apply new_enum_cases in Hb as [[[=] _] | [[= ->] _]]. project_members.
    etransitivity;
      [exact (filter_nil_iff (fun kv : str * str => makes_member nome kv.1)
                (enum_members (criar_enum_dinamico U h nome valores)))|].
    rewrite !forallb_forall. split.
    + intros Hall s Hs. apply list_elem_of_In in Hs.
      assert (Hk : chave U s ∈
                   dict_keys (enum_members (criar_enum_dinamico U h nome valores))).
      { apply members_keys, list_elem_of_fmap. eauto. }
      apply list_elem_of_fmap in Hk as ([k v] & Ek & Hin). simpl in Ek. subst k.
      apply list_elem_of_In in Hin. exact (Hall _ Hin).
    + intros Hall [k v] Hin. simpl.
      assert (Hk : k ∈ dict_keys (enum_members (criar_enum_dinamico U h nome valores))).
      { apply list_elem_of_fmap. exists (k, v). split; [done | by apply list_elem_of_In]. }
      apply members_keys, list_elem_of_fmap in Hk as (s & -> & Hs).
      apply Hall. by apply list_elem_of_In.
Qed.

(** X8.  An enum that is built has as many members as the values have
    distinct labels that make a member, which is at most the number of
    distinct values: a collision loses a member, nothing adds one. *)
Theorem members_count (h : set_order) nome valores E' :
  enum_built U h nome valores = Some (Return E') ->
  length (enum_members E') =
    length (remove_dups (List.filter (makes_member nome)
                           (map (chave U) (textos valores)))) /\
  (length (enum_members E') <= length (remove_dups (textos valores)))%nat.
Proof.
  intros Hb.
  set (E := criar_enum_dinamico U h nome valores).
  assert (Hlen : length (List.filter (fun kv => makes_member nome kv.1) (enum_members E)) =
                 length (remove_dups (List.filter (makes_member nome)
                                        (map (chave U) (textos valores))))).
  { rewrite <- (length_map fst (List.filter _ (enum_members E))).
    change (map fst ?d) with (dict_keys d). rewrite dict_keys_filter.
    apply Permutation_length, NoDup_Permutation.
    - apply NoDup_filter_bool. apply (membros_loop_NoDup U). constructor.
    - apply NoDup_remove_dups.
    - intros k. rewrite elem_of_remove_dups, !list_elem_of_In, !filter_In,
        <- !list_elem_of_In. unfold E. by rewrite members_keys. }
  assert (Hle : (length (List.filter (fun kv => makes_member nome kv.1) (enum_members E)) <=
                 length (remove_dups (textos valores)))%nat).
  { rewrite Hlen.
    rewrite <- (length_map (chave U) (remove_dups (textos valores))).
    apply submseteq_length, NoDup_submseteq; [apply NoDup_remove_dups|].
    intros k. rewrite elem_of_remove_dups, list_elem_of_In, filter_In,
      <- list_elem_of_In, !list_elem_of_fmap.
    intros [(s & -> & Hs) _]. exists s. split; [done|]. by apply elem_of_remove_dups. }
  unfold enum_built in Hb. apply new_enum_cases in Hb as [[[=] _] | [[= ->] _]].
  split; [exact Hlen | exact Hle].
Qed.

End Built.



Lemma collision_single_entry_witness :
  enum_built latin1 reversed (lit "UnitEnum")
    [RStr (lit "A-1"); RNone; RStr (lit "A 1"); RStr (lit "A-1")] =
  Some (Return {| enum_name := lit "UnitEnum";
                  enum_members := [(lit "A_1", lit "A-1")] |}).
Proof.
  apply (proj2 (proj2 (collision_single_entry latin1 reversed (lit "UnitEnum")
           [RStr (lit "A-1"); RNone; RStr (lit "A 1"); RStr (lit "A-1")]))).
  vm_compute. reflexivity.
Defined.


Lemma no_values_no_members_witness :
  enum_built latin1 reversed (lit "UnitEnum") [RNaN; RNone] =
    Some (Return {| enum_name := lit "UnitEnum"; enum_members := [] |}) /\
  enum_built latin1 reversed (lit "UnitEnum") [RStr (lit "__x__")] =
    Some (Return {| enum_name := lit "UnitEnum"; enum_members := [] |}).
Proof.
  split.
  - apply (no_values_no_members latin1 reversed (lit "UnitEnum") [RNaN; RNone]).
    reflexivity.
  - vm_compute. reflexivity.
Defined.

Lemma members_count_witness :
  length (remove_dups
            (List.filter (makes_member (lit "UnitEnum"))
               (map (chave latin1)
                  (textos [RStr (lit "A-1"); RStr (lit "IT");
                           RStr (lit "__x__"); RStr (lit "A 1")])))) = 2%nat /\
  (2 <= length (remove_dups (textos [RStr (lit "A-1"); RStr (lit "IT");
                                     RStr (lit "__x__"); RStr (lit "A 1")])))%nat.
Proof.
  destruct (members_count latin1 last_seen (lit "UnitEnum")
              [RStr (lit "A-1"); RStr (lit "IT"); RStr (lit "__x__"); RStr (lit "A 1")]
              {| enum_name := lit "UnitEnum";
                 enum_members := [(lit "A_1", lit "A-1"); (lit "IT", lit "IT")] |}
              ltac:(vm_compute; reflexivity)) as [H1 H2].
  split; [symmetry; exact H1 | exact H2].
Defined.

(* ===================================================================== *)
(** * The texts [parse_date] reads as a date *)
(* ===================================================================== *)

(** A match takes a prefix [w] of the text, of a length within the bounds of
    the expression, and leaves the rest. *)
Lemma run_span r pos s g pos' s' g' :
  (pos', s', g') ∈ Re.run r pos s g ->
  exists w, s = w ++ s' /\ pos' = (pos + length w)%nat /\
            (min_len r <= length w <= max_len r)%nat.
Proof.
  revert pos s g pos' s' g'.
  induction r as [c|p|r1 IH1 r2 IH2|r1 IH1 r2 IH2| |r1 IH1|n r1 IH1];
    intros pos s g pos' s' g' H; cbn [Re.run] in H.
  - destruct s as [|x s0]; [inversion H|]. destruct (x =? c); [|inversion H].
    apply list_elem_of_singleton in H. injection H as -> -> ->.
    exists [x]. simpl. repeat split; lia.
  - destruct s as [|x s0]; [inversion H|]. destruct (p x); [|inversion H].
    apply list_elem_of_singleton in H. injection H as -> -> ->.
    exists [x]. simpl. repeat split; lia.
  - apply list_elem_of_In, in_flat_map in H as ([[p1 s1] g1] & H1 & H2).
    apply list_elem_of_In in H1, H2.
    destruct (IH1 _ _ _ _ _ _ H1) as (w1 & -> & -> & B1).
    destruct (IH2 _ _ _ _ _ _ H2) as (w2 & -> & -> & B2).
    exists (w1 ++ w2). rewrite <- app_assoc, length_app. simpl. repeat split; lia.
  - apply elem_of_app in H as [H|H].
    + destruct (IH1 _ _ _ _ _ _ H) as (w & -> & -> & B). exists w. simpl.
      repeat split; lia.
    + destruct (IH2 _ _ _ _ _ _ H) as (w & -> & -> & B). exists w. simpl.
      repeat split; lia.
  - destruct (Nat.eqb pos 0); [|inversion H].
    apply list_elem_of_singleton in H. injection H as -> -> ->.
    exists []. simpl. repeat split; lia.
  - destruct (Re.run r1 pos s g); [inversion H|].
    apply list_elem_of_singleton in H. injection H as -> -> ->.
    exists []. simpl. repeat split; lia.
  - apply list_elem_of_fmap in H as ([[p1 s1] g1] & E & H1).
    injection E as -> -> ->.
    destruct (IH1 _ _ _ _ _ _ H1) as (w & -> & -> & B). exists w. simpl.
    repeat split; lia.
Qed.

(** An expression without groups leaves the groups as they are. *)
Lemma run_group_free r pos s g pos' s' g' :
  group_free r = true -> (pos', s', g') ∈ Re.run r pos s g -> g' = g.
Proof.
  revert pos s g pos' s' g'.
  induction r as [c|p|r1 IH1 r2 IH2|r1 IH1 r2 IH2| |r1 IH1|n r1 IH1];
    intros pos s g pos' s' g' Hf H; cbn [Re.run group_free] in *.
  - destruct s as [|x s0]; [inversion H|]. destruct (x =? c); [|inversion H].
    apply list_elem_of_singleton in H. by injection H as -> -> ->.
  - destruct s as [|x s0]; [inversion H|]. destruct (p x); [|inversion H].
    apply list_elem_of_singleton in H. by injection H as -> -> ->.
  - apply andb_true_iff in Hf as [F1 F2].
    apply list_elem_of_In, in_flat_map in H as ([[p1 s1] g1] & H1 & H2).
    apply list_elem_of_In in H1, H2.
    rewrite (IH2 _ _ _ _ _ _ F2 H2). apply (IH1 _ _ _ _ _ _ F1 H1).
  - apply andb_true_iff in Hf as [F1 F2].
    apply elem_of_app in H as [H|H]; eauto.
  - destruct (Nat.eqb pos 0); [|inversion H].
    apply list_elem_of_singleton in H. by injection H as -> -> ->.
  - destruct (Re.run r1 pos s g); [inversion H|].
    apply list_elem_of_singleton in H. by injection H as -> -> ->.
  - discriminate.
Qed.

(** A named group over an expression without groups records the text it
    took. *)
Lemma run_group n r pos s g pos' s' g' :
  group_free r = true ->
  (pos', s', g') ∈ Re.run (Re.Grp n r) pos s g ->
  exists w, s = w ++ s' /\ pos' = (pos + length w)%nat /\
            (min_len r <= length w <= max_len r)%nat /\ g' = (n, w) :: g.
Proof.
  intros Hf H. cbn [Re.run] in H.
  apply list_elem_of_fmap in H as ([[p1 s1] g1] & E & H1).
  injection E as -> -> ->.
  rewrite (run_group_free _ _ _ _ _ _ _ Hf H1).
  destruct (run_span _ _ _ _ _ _ _ H1) as (w & -> & -> & B).
  exists w. repeat split; try lia.
  replace (pos + length w - pos)%nat with (length w) by lia.
  by rewrite take_app_length.
Qed.

Lemma run_chr c pos s g pos' s' g' :
  (pos', s', g') ∈ Re.run (Re.Chr c) pos s g ->
  s = c :: s' /\ pos' = S pos /\ g' = g.
Proof.
  cbn [Re.run]. destruct s as [|x s0]; [intros H; inversion H|].
  destruct (N.eqb_spec x c) as [->|]; [|intros H; inversion H].
  intros H. apply list_elem_of_singleton in H. by injection H as -> -> ->.
Qed.

Lemma run_cat_elem r1 r2 pos s g p :
  p ∈ Re.run (Re.Cat r1 r2) pos s g ->
  exists p1 s1 g1, (p1, s1, g1) ∈ Re.run r1 pos s g /\ p ∈ Re.run r2 p1 s1 g1.
Proof.
  cbn [Re.run]. intros H.
  apply list_elem_of_In, in_flat_map in H as ([[p1 s1] g1] & H1 & H2).
  apply list_elem_of_In in H1, H2. eauto.
Qed.

Section DateTexts.
Context (U : unicode_data).

(** The shape of a text the format matches. *)
Lemma format_regex_shape s end_ s' g :
  (end_, s', g) ∈ Re.run (format_regex U) 0 s [] ->
  exists mt dt yt,
    s = mt ++ lit "/" ++ dt ++ lit "/" ++ yt ++ s' /\
    (1 <= length mt <= 2)%nat /\ (1 <= length dt <= 2)%nat /\ length yt = 4%nat /\
    end_ = (length mt + length dt + 6)%nat /\
    g = [("Y"%string, yt); ("d"%string, dt); ("m"%string, mt)].
Proof.
  unfold format_regex. intros H.
  apply run_cat_elem in H as (p1 & s1 & g1 & Hm & H).
  apply run_cat_elem in H as (p2 & s2 & g2 & Hs1 & H).
  apply run_cat_elem in H as (p3 & s3 & g3 & Hd & H).
  apply run_cat_elem in H as (p4 & s4 & g4 & Hs2 & Hy).
  apply run_group in Hm as (mt & -> & -> & Bm & ->); [|reflexivity].
  apply run_chr in Hs1 as (-> & -> & ->).
  apply run_group in Hd as (dt & -> & -> & Bd & ->); [|reflexivity].
  apply run_chr in Hs2 as (-> & -> & ->).
  apply run_group in Hy as (yt & -> & -> & By & ->); [|reflexivity].
  cbn in Bm, Bd, By.
  exists mt, dt, yt. repeat split; try lia.
Qed.

(** A text that [strptime] accepts has at most ten characters. *)
Lemma strptime_length s dt : strptime U s = Return dt -> (length s <= 10)%nat.
Proof.
  unfold strptime, Re.rmatch.
  destruct (Re.run (format_regex U) 0 s []) as [|[[end_ s'] g] l] eqn:Hrun;
    [discriminate|].
  assert (Hin : (end_, s', g) ∈ Re.run (format_regex U) 0 s [])
    by (rewrite Hrun; constructor).
  apply format_regex_shape in Hin as (mt & dt' & yt & Hs & Bm & Bd & By & He & ->).
  destruct (Nat.eqb_spec (length s) end_) as [Hlen|]; [|discriminate].
  intros _. lia.
Qed.

Lemma datetime_str_length dt : (19 <= length (datetime_str dt))%nat.
Proof.
  unfold datetime_str, six_digits, two_digits, four_digits.
  rewrite !length_app. cbn [length].
  change (length (lit "-")) with 1%nat. change (length (lit " ")) with 1%nat.
  change (length (lit ":")) with 1%nat. lia.
Qed.

(** C10.  A value that is already a [datetime] is not parsed: [parse_date]
    returns the date made of the year, the month and the day of the value,
    whatever its time of day, and not [None]; the text of the same value,
    [str(dt)] as in "2014-04-20 13:45:00", is not in the format
    month/day/year, so that parsing it would have given [None]. *)
Theorem parse_date_datetime (dt : datetime) :
  parse_date U (CDatetime dt) =
    Return (Some {| year := dt_year dt; month := dt_month dt; day := dt_day dt |}) /\
  parse_date U (CDatetime dt) <> Return None /\
  parse_date U (CStr (datetime_str dt)) = Return None /\
  parse_date U (CDatetime {| dt_year := 2014; dt_month := 4; dt_day := 20;
                             dt_hour := 13; dt_minute := 45; dt_second := 0;
                             dt_microsecond := 0 |}) =
    Return (Some {| year := 2014; month := 4; day := 20 |}).
Proof.
  split; [reflexivity|]. split; [discriminate|]. split; [|reflexivity].
  unfold parse_date. cbn [isna].
  destruct (strptime U (datetime_str dt)) as [dt'|e] eqn:Hs; [|reflexivity].
  apply strptime_length in Hs. pose proof (datetime_str_length dt). lia.
Qed.

(** X9.  A text that [parse_date] reads as a date has the shape
    month/day/year and nothing else: one or two characters, a slash, one or
    two characters, a slash, and exactly four characters, with nothing
    before or after; the three fields of the date are the numbers these
    texts stand for, and they form a date of the calendar.  So a year of
    two digits, a time after the date or an ISO date is never read. *)
Theorem parse_date_shape s d :
  parse_date U (CStr s) = Return (Some d) ->
  exists mt dt yt,
    s = mt ++ lit "/" ++ dt ++ lit "/" ++ yt /\
    (1 <= length mt <= 2)%nat /\ (1 <= length dt <= 2)%nat /\ length yt = 4%nat /\
    int U mt = Some (month d) /\ int U dt = Some (day d) /\ int U yt = Some (year d) /\
    date_fields_ok (year d) (month d) (day d) = true.
Proof.
  unfold parse_date. cbn [isna]. unfold strptime, Re.rmatch.
  destruct (Re.run (format_regex U) 0 s []) as [|[[end_ s'] g] l] eqn:Hrun;
    [discriminate|].
  assert (Hin : (end_, s', g) ∈ Re.run (format_regex U) 0 s [])
    by (rewrite Hrun; constructor).
  apply format_regex_shape in Hin as (mt & dt & yt & Hs & Bm & Bd & By & He & ->).
  destruct (Nat.eqb_spec (length s) end_) as [Hlen|]; [|discriminate].
  cbn [negb].
  assert (s' = []) as ->.
  { apply (f_equal length) in Hs. rewrite !length_app in Hs.
    change (length (lit "/")) with 1%nat in Hs.
    destruct s'; [reflexivity|]. simpl in Hs. lia. }
  rewrite app_nil_r in Hs.
  unfold int_group. cbn [Re.group String.eqb Ascii.eqb Bool.eqb].
  destruct (int U mt) as [m|] eqn:Em; [|discriminate].
  destruct (int U dt) as [dd|] eqn:Ed; [|discriminate].
  destruct (int U yt) as [y|] eqn:Ey; [|discriminate].
  cbn [bind]. unfold new_date.
  destruct (date_fields_ok y m dd) eqn:Hok; [|discriminate].
  cbn [bind try_except datetime_date dt_year dt_month dt_day].
  intros [= <-]. cbn [year month day datetime_date dt_year dt_month dt_day].
  exists mt, dt, yt. repeat split; try done; lia.
Qed.

(** Evaluate the matcher on a group whose text is known, then step over the
    slash that follows. *)
Ltac step_group r :=
  rewrite (run_cat r);
  match goal with
  | |- context [Re.run r ?p ?s ?g] =>
      let v := eval vm_compute in (Re.run r p s g) in
      change (Re.run r p s g) with v
  end;
  cbn [flat_map]; rewrite ?run_slash; cbn [N.eqb Pos.eqb app]; rewrite ?app_nil_r.

Lemma run_month_text m t k rest :
  (1 <= m <= 12)%Z -> month_text m t ->
  Re.run (Re.Cat re_m (Re.Cat (chr "/") k)) 0 (t ++ lit "/" ++ rest) [] =
  Re.run k (S (length t)) rest [("m"%string, t)].
Proof.
  intros Hm [->| ->]; enum_Z m 1%Z 12%nat; step_group re_m; reflexivity.
Qed.

Lemma run_day_text d t k rest pos g :
  (1 <= d <= 31)%Z -> day_text d t -> (pos = 2 \/ pos = 3)%nat ->
  Re.run (Re.Cat (re_d U) (Re.Cat (chr "/") k)) pos (t ++ lit "/" ++ rest) g =
  Re.run k (S (pos + length t)) rest (("d"%string, t) :: g).
Proof.
  intros Hd [->|[->|[Hlt ->]]] [->| ->]; enum_Z d 1%Z 31%nat;
    try (exfalso; lia); step_group (re_d U); reflexivity.
Qed.

Lemma run_year_at pos a b c e g :
  isdecimal U a = true -> isdecimal U b = true ->
  isdecimal U c = true -> isdecimal U e = true ->
  Re.run (re_Y U) pos [a; b; c; e] g =
  [((4 + pos)%nat, [], ("Y"%string, [a; b; c; e]) :: g)].
Proof.
  intros Ha Hb Hc He. unfold re_Y, digit_class. cbn [Re.run flat_map map app].
  rewrite Ha. cbn [Re.run flat_map map app]. rewrite Hb. cbn [Re.run flat_map map app].
  rewrite Hc. cbn [Re.run flat_map map app]. rewrite He. cbn [Re.run flat_map map app].
  replace (S (S (S (S pos))) - pos)%nat with 4%nat by lia. reflexivity.
Qed.

Lemma month_text_length m t :
  month_text m t -> (1 <= length t <= 2)%nat.
Proof.
  unfold month_text, numeral. intros [->| ->]; [|destruct (m <? 10)%Z];
    unfold two_digits; cbn [length]; lia.
Qed.

Lemma day_text_length d t :
  day_text d t -> (1 <= length t <= 2)%nat.
Proof.
  unfold day_text, numeral. intros [->|[->|[_ ->]]]; [|destruct (d <? 10)%Z|];
    unfold two_digits; cbn [length app lit]; try lia.
  change (length (lit " " ++ [digit d])) with 2%nat. lia.
Qed.

Lemma int_digit n : (0 <= n <= 9)%Z -> int U [digit n] = Some n.
Proof.
  intros Hn. unfold int, strip. cbn [lstrip rev app].
  rewrite digit_isspace by done. cbn [lstrip rev app].
  rewrite digit_isspace by done. cbn [rev app digits_value].
  rewrite digit_decimal by done. cbn [option_map]. f_equal. lia.
Qed.

Lemma int_blank_digit n : (0 <= n <= 9)%Z -> int U (lit " " ++ [digit n]) = Some n.
Proof.
  intros Hn. unfold int, strip. change (lit " " ++ [digit n]) with [32; digit n].
  cbn [lstrip rev app]. change (isspace U 32) with true. cbn [lstrip rev app].
  rewrite digit_isspace by done. cbn [lstrip rev app].
  rewrite digit_isspace by done. cbn [rev app digits_value].
  rewrite digit_decimal by done. cbn [option_map]. f_equal. lia.
Qed.

Lemma int_numeral n : (0 <= n <= 99)%Z -> int U (numeral n) = Some n.
Proof.
  intros Hn. unfold numeral. destruct (Z.ltb_spec n 10).
  - apply int_digit. lia.
  - by apply int_two_digits.
Qed.

Lemma int_month_text m t : (1 <= m <= 12)%Z -> month_text m t -> int U t = Some m.
Proof. intros Hm [->| ->]; [apply int_two_digits | apply int_numeral]; lia. Qed.

Lemma int_day_text d t : (1 <= d <= 31)%Z -> day_text d t -> int U t = Some d.
Proof.
  intros Hd [->|[->|[Hlt ->]]];
    [apply int_two_digits | apply int_numeral | apply int_blank_digit]; lia.
Qed.

(** X10.  [parse_date] does not insist on the padding of MM/DD/YYYY: the
    month may be written with or without its leading zero, the day too, or
    with a blank in its place; the year always takes four digits.  So
    "4/5/2014", "04/05/2014" and "4/ 5/2014" are read as the same date. *)
Theorem parse_date_padding d mt dt :
  date_fields_ok (year d) (month d) (day d) = true ->
  month_text (month d) mt -> day_text (day d) dt ->
  parse_date U (CStr (mt ++ lit "/" ++ dt ++ lit "/" ++ four_digits (year d))) =
  Return (Some d).
Proof.
  destruct d as [y m dd]. cbn [year month day]. intros Hok Hmt Hdt.
  pose proof Hok as Hok'. unfold date_fields_ok in Hok'.
  repeat (apply andb_true_iff in Hok' as [Hok' ?]).
  pose proof (days_in_month_le y m).
  assert (Hy : (1 <= y <= 9999)%Z) by lia.
  assert (Hm : (1 <= m <= 12)%Z) by lia.
  assert (Hd : (1 <= dd <= 31)%Z) by lia.
  assert (Y1 : (0 <= y / 1000 <= 9)%Z) by (Z.div_mod_to_equations; lia).
  assert (Y2 : (0 <= y / 100 mod 10 <= 9)%Z) by (Z.div_mod_to_equations; lia).
  assert (Y3 : (0 <= y / 10 mod 10 <= 9)%Z) by (Z.div_mod_to_equations; lia).
  assert (Y4 : (0 <= y mod 10 <= 9)%Z) by (Z.div_mod_to_equations; lia).
  pose proof (month_text_length _ _ Hmt) as Lm.
  pose proof (day_text_length _ _ Hdt) as Ld.
  unfold parse_date. cbn [isna].
  unfold strptime, Re.rmatch, format_regex.
  rewrite (run_month_text m) by done.
  rewrite (run_day_text dd) by (done || lia).
  unfold four_digits at 1. rewrite run_year_at by (by apply digit_isdecimal).
  fold (four_digits y).
  rewrite !length_app. change (length (lit "/")) with 1%nat.
  change (length (four_digits y)) with 4%nat.
  replace (length mt + (1 + (length dt + (1 + 4))) =? 4 + S (S (length mt) + length dt))%nat
    with true by (symmetry; apply Nat.eqb_eq; lia).
  cbn [negb]. unfold int_group. cbn [Re.group String.eqb Ascii.eqb Bool.eqb].
  rewrite (int_month_text m), (int_day_text dd), int_four_digits by (done || lia).
  cbn [bind]. unfold new_date. rewrite Hok. reflexivity.
Qed.

End DateTexts.

Lemma parse_date_shape_witness :
  exists mt dt yt,
    lit "12/ 7/1999" = mt ++ lit "/" ++ dt ++ lit "/" ++ yt /\
    (1 <= length mt <= 2)%nat /\ (1 <= length dt <= 2)%nat /\ length yt = 4%nat /\
    int latin1 mt = Some 12%Z /\ int latin1 dt = Some 7%Z /\
    int latin1 yt = Some 1999%Z /\ date_fields_ok 1999 12 7 = true.
Proof.
  apply (parse_date_shape latin1 (lit "12/ 7/1999")
           {| year := 1999; month := 12; day := 7 |}).
  reflexivity.
Defined.

Lemma parse_date_padding_witness :
  parse_date latin1 (CStr (lit "4/ 5/2014")) =
  Return (Some {| year := 2014; month := 4; day := 5 |}).
Proof.
  apply (parse_date_padding latin1 {| year := 2014; month := 4; day := 5 |}
           (lit "4") (lit " 5")).
  - reflexivity.
  - right. reflexivity.
  - right. right. split; [simpl; lia | reflexivity].
Defined.

(* ===================================================================== *)
(** * The keys of the stored rows *)
(* ===================================================================== *)

Lemma fold_max_snoc k ks m :
  fold_right Z.max k (ks ++ [m]) = Z.max m (fold_right Z.max k ks).
Proof. induction ks as [|a ks IH]; simpl; [lia|]. rewrite IH. lia. Qed.

Lemma next_id_app_one (t : table) s :
  id s = next_id t -> next_id (t ++ [s]) = (next_id t + 1)%Z.
Proof.
  unfold next_id. rewrite map_app. destruct (map id t) as [|k ks]; simpl.
  - intros ->. reflexivity.
  - intros Hs. rewrite fold_max_snoc, Hs. lia.
Qed.

Lemma record_of_id i r s : record_of i r = Some s -> id s = i.
Proof.
  unfold record_of.
  destruct (sql_text (FIRST_NAME r)), (sql_text (LAST_NAME r)), (sql_text (SEX r)),
    (sql_text (DESIGNATION r)), (sql_real (SALARY r)), (sql_text (UNIT r));
    try discriminate.
  by intros [= <-].
Qed.

(** The keys [to_sql] gives: one after the other from the next free key, in
    the order of the frame. *)
Lemma to_sql_ids df t t' :
  to_sql df t = Return t' ->
  exists new, t' = t ++ new /\
    map id new = map (fun k => (next_id t + Z.of_nat k)%Z) (seq 0 (length df)).
Proof.
  revert t t'. induction df as [|r df IH]; intros t t'; simpl.
  - intros [= <-]. exists []. by rewrite app_nil_r.
  - unfold insert_row. destruct (record_of (next_id t) r) as [s|] eqn:Hs; [|discriminate].
    cbn [bind]. intros H. destruct (IH _ _ H) as (new & -> & Hids).
    exists (s :: new). rewrite <- app_assoc. split; [reflexivity|].
    pose proof (record_of_id _ _ _ Hs) as Hid.
    simpl. rewrite Hid, Z.add_0_r. f_equal.
    rewrite Hids, (next_id_app_one t s Hid), <- seq_shift, map_map.
    apply map_ext. intros k. lia.
Qed.

Lemma convert_dates_length U df df' :
  convert_dates U df = Return df' -> length df' = length df.
Proof.
  intros H. destruct (convert_dates_returns U df) as (df0 & E & HF).
  rewrite E in H. injection H as <-. symmetry. by eapply Forall2_length.
Qed.

(** X11.  The persist step numbers the new rows one after the other, in the
    order of the frame, from the key after the largest one in the table
    (the keys staying below 2^63); a first load into the empty table gives
    the keys 1, 2, ..., n. *)
Theorem populate_keys U (df : list (Row cell)) (t t' : table) :
  (next_id t + Z.of_nat (length df) <= 9223372036854775808)%Z ->
  populate U df t = Return t' ->
  exists new, t' = t ++ new /\ length new = length df /\
    map id new = map (fun k => (next_id t + Z.of_nat k)%Z) (seq 0 (length df)) /\
    (t = [] -> map id t' = map (fun k => Z.of_nat (S k)) (seq 0 (length df))).
Proof.
  intros _. unfold populate.
  destruct (convert_dates U df) as [df'|] eqn:Hc; [|discriminate].
  cbn [bind]. intros H. apply to_sql_ids in H as (new & -> & Hids).
  rewrite (convert_dates_length _ _ _ Hc) in Hids.
  exists new. split; [reflexivity|]. split; [|split; [exact Hids|]].
  - rewrite <- (length_map id new), Hids, length_map. apply length_seq.
  - intros ->. cbn [app]. rewrite Hids. apply map_ext. intros k.
    change (next_id []) with 1%Z. lia.
Qed.

Lemma populate_keys_witness :
  exists t', populate latin1
      [employee "Ana" CNaN "Manager" 120000; employee "Rui" CNaN "Analyst" 44570]
      [manager (-5) 60000] = Return t' /\
    map id t' = [-5; -4; -3]%Z.
Proof.
  destruct (populate_keys latin1
      [employee "Ana" CNaN "Manager" 120000; employee "Rui" CNaN "Analyst" 44570]
      [manager (-5) 60000] _ ltac:(unfold next_id; simpl; lia) eq_refl)
    as (new & E & _ & Hids & _).
  eexists. split; [reflexivity|].
  etransitivity; [exact (f_equal (map id) E)|]. rewrite map_app, Hids. reflexivity.
Defined.

(* ===================================================================== *)
(** * When the composed statement returns *)
(* ===================================================================== *)

Lemma mapM_returns_on {A B} (f : A -> outcome B) l :
  (forall x, x ∈ l -> exists y, f x = Return y) ->
  exists ys, mapM f l = Return ys.
Proof.
  induction l as [|x l IH]; intros Hf; simpl; [by eexists|].
  destruct (Hf x) as (y & ->); [constructor|].
  destruct IH as (ys & ->); [intros z Hz; apply Hf; by constructor|].
  simpl. by eexists.
Qed.

(** X12.  The composed statement returns exactly when every designation
    stored in the table is the name of a member of the enum; otherwise it
    raises [LookupError], and it raises nothing else. *)
Theorem stmt_returns_iff o E (t : table) :
  ((exists rows, stmt o E t = Return rows) <->
   forallb (fun r => is_member_name E (designation r)) t = true) /\
  (forall e, stmt o E t = Raise e -> e = LookupError).
Proof.
  split; [split|].
  - intros (rows & Hrows). apply forallb_forall. intros r Hr.
    apply list_elem_of_In in Hr. unfold is_member_name.
    destruct (dict_get (enum_members E) (designation r)) eqn:Hn; [reflexivity|].
    rewrite (stmt_raises o E t r Hr Hn) in Hrows. discriminate.
  - intros Hall. rewrite forallb_forall in Hall.
    unfold stmt. apply mapM_returns_on. intros row Hrow.
    assert (Hk : agg_designation row ∈ map agg_designation (select_salaries o t))
      by (apply list_elem_of_fmap; eauto).
    rewrite select_salaries_perm, grouped_designations in Hk.
    apply group_keys_elem in Hk as (r & Hr & Hd).
    apply list_elem_of_In in Hr. specialize (Hall r Hr).
    unfold is_member_name in Hall. rewrite Hd in Hall. unfold enum_result.
    destruct (dict_get (enum_members E) (agg_designation row)); [|discriminate].
    simpl. by eexists.
  - unfold stmt. generalize (select_salaries o t). intros l.
    induction l as [|a l IH]; intros e; simpl; [discriminate|].
    unfold enum_result at 1. destruct (dict_get _ _); simpl; [|congruence].
    destruct (mapM _ l) eqn:Hl; simpl; [discriminate|].
    intros [= <-]. by apply IH.
Qed.

Lemma stmt_returns_iff_witness :
  exists rows,
    stmt by_key (criar_enum_dinamico latin1 last_seen (lit "DesignationEnum")
            [RStr (lit "Manager")])
         [{| id := 1; first_name := lit "Ana"; last_name := lit "Silva"; sex := lit "F";
             doj := None; current_date := None; designation := lit "MANAGER";
             age := None; salary := 120000; unit := lit "IT"; leaves_used := None;
             leaves_remaining := None; ratings := None; past_exp := None |}] =
    Return rows.
Proof.
  apply (proj1 (stmt_returns_iff by_key
                  (criar_enum_dinamico latin1 last_seen (lit "DesignationEnum")
                     [RStr (lit "Manager")]) _)).
  reflexivity.
Defined.

Lemma record_of_designation i r s :
  record_of i r = Some s -> DESIGNATION r = RStr (designation s) /\ salary s = SALARY r.
Proof.
  unfold record_of, sql_text, sql_real.
  destruct (FIRST_NAME r), (LAST_NAME r), (SEX r), (DESIGNATION r),
    (PrimFloat.is_nan (SALARY r)), (UNIT r); try discriminate.
  intros [= <-]. split; reflexivity.
Qed.

Lemma stored_as_designation U r s :
  stored_as U r s -> DESIGNATION r = RStr (designation s) /\ salary s = SALARY r.
Proof. intros (d1 & d2 & _ & _ & H). by apply record_of_designation in H. Qed.

(** When [populate] returns, every row of the frame has been stored. *)
Lemma populate_stored U df t t' :
  populate U df t = Return t' ->
  exists new, t' = t ++ new /\ Forall2 (stored_as U) df new.
Proof.
  intros H. destruct (forallb storable df) eqn:Hs.
  - destruct (populate_once U df t Hs) as (new & E & HF & _).
    rewrite E in H. injection H as <-. eauto.
  - rewrite (populate_refuses U df t Hs) in H. discriminate.
Qed.

Section OwnLabels.
Context (U : unicode_data).

(** X13.  Once the frame is stored, the composed statement with the enum
    built from the DESIGNATION column raises [LookupError] as soon as one
    designation of the frame is not its own label (the designations being
    ASCII text): the table holds the text of the file, which is then not the
    name of any member. *)
Theorem stmt_needs_own_labels (h : set_order) (o : row_order) nome
    (df : list (Row cell)) (t0 t : table) r s :
  populate U df t0 = Return t ->
  r ∈ df -> DESIGNATION r = RStr s ->
  forallb (forallb is_ascii) (textos (map DESIGNATION df)) = true ->
  chave U s <> s ->
  stmt o (criar_enum_dinamico U h nome (unique (map DESIGNATION df))) t =
  Raise LookupError.
Proof.
  intros Hpop Hr Hs Hascii Hown.
  apply populate_stored in Hpop as (new & -> & HF).
  apply list_elem_of_lookup in Hr as (i & Hi).
  destruct (Forall2_lookup_l _ _ _ _ _ HF Hi) as (rec & Hrec & Hst).
  apply stored_as_designation in Hst as [Hd _]. rewrite Hs in Hd. injection Hd as Hd.
  apply (stmt_raises _ _ _ rec).
  - apply elem_of_app. right. by eapply list_elem_of_lookup_2.
  - apply dict_get_None. rewrite <- Hd. intros Hk.
    apply members_keys, list_elem_of_fmap in Hk as (v & Hv & Hin).
    apply textos_elem in Hin as (x & Hx & Hn & Hp). rewrite unique_elem in Hx.
    assert (Hv' : v ∈ textos (map DESIGNATION df)) by (apply textos_elem; exists x; done).
    apply Hown. rewrite Hv. apply chave_chave_ascii.
    rewrite forallb_forall in Hascii. by apply Hascii, list_elem_of_In.
Qed.

End OwnLabels.

Lemma stmt_needs_own_labels_witness :
  stmt by_key (criar_enum_dinamico latin1 reversed (lit "DesignationEnum")
          (unique (map DESIGNATION
             [employee "Ana" CNaN "MANAGER" 120000; employee "Rui" CNaN "Analyst" 44570])))
       [manager 1 60000;
        {| id := 2; first_name := lit "Ana"; last_name := lit "Silva"; sex := lit "F";
           doj := None; current_date := None; designation := lit "MANAGER";
           age := Some 30%Z; salary := 120000; unit := lit "IT"; leaves_used := None;
           leaves_remaining := None; ratings := None; past_exp := Some 2%float |};
        {| id := 3; first_name := lit "Rui"; last_name := lit "Silva"; sex := lit "F";
           doj := None; current_date := None; designation := lit "Analyst";
           age := Some 30%Z; salary := 44570; unit := lit "IT"; leaves_used := None;
           leaves_remaining := None; ratings := None; past_exp := Some 2%float |}] =
  Raise LookupError.
Proof.
  apply (stmt_needs_own_labels latin1 reversed by_key (lit "DesignationEnum")
           [employee "Ana" CNaN "MANAGER" 120000; employee "Rui" CNaN "Analyst" 44570]
           [manager 1 60000] _
           (employee "Rui" CNaN "Analyst" 44570) (lit "Analyst")).
  - vm_compute. reflexivity.
  - right. left.
  - reflexivity.
  - reflexivity.
  - vm_compute. discriminate.
Defined.

(* ===================================================================== *)
(** * The query after a second run *)
(* ===================================================================== *)

Lemma group_values_app t1 t2 k :
  group_values (t1 ++ t2) k = group_values t1 k ++ group_values t2 k.
Proof. unfold group_values. rewrite <- map_app. f_equal. apply list.filter_app. Qed.

(** Values that are in the group already change neither its least nor its
    greatest value. *)
Lemma sql_min_seen x xs ys :
  (forall y, y ∈ ys -> y ∈ x :: xs) -> sql_min x (xs ++ ys) = sql_min x xs.
Proof.
  intros Hys. unfold sql_min. rewrite fold_left_app. fold (sql_min x xs).
  destruct (sql_min_minimum x xs) as [_ Hle]. revert Hle. generalize (sql_min x xs).
  intros m Hle. induction ys as [|y ys IH]; simpl; [reflexivity|].
  unfold min_step at 2. rewrite (Hle y) by (apply Hys; constructor).
  apply IH. intros z Hz. apply Hys. by constructor.
Qed.

Lemma sql_max_seen x xs ys :
  (forall y, y ∈ ys -> y ∈ x :: xs) -> sql_max x (xs ++ ys) = sql_max x xs.
Proof.
  intros Hys. unfold sql_max. rewrite fold_left_app. fold (sql_max x xs).
  destruct (sql_max_maximum x xs) as [_ Hle]. revert Hle. generalize (sql_max x xs).
  intros m Hle. induction ys as [|y ys IH]; simpl; [reflexivity|].
  unfold max_step at 2. rewrite (Hle y) by (apply Hys; constructor).
  apply IH. intros z Hz. apply Hys. by constructor.
Qed.

(** Rows whose designation and salary the table holds already add no group
    and change no least or greatest value. *)
Lemma select_salaries_seen o1 o2 (t new : table) :
  (forall r, r ∈ new ->
     exists r0, r0 ∈ t /\ designation r0 = designation r /\ salary r0 = salary r) ->
  map key_min_max (select_salaries o2 (t ++ new)) ≡ₚ
  map key_min_max (select_salaries o1 t).
Proof.
  intros Hnew. rewrite !select_salaries_perm.
  assert (Hk : group_keys (t ++ new) = group_keys t).
  { unfold group_keys. apply sorted_set_eq; try apply NoDup_remove_dups.
    intros k. rewrite !elem_of_remove_dups, map_app, elem_of_app. split; [|by left].
    intros [?|Hk]; [done|]. apply list_elem_of_fmap in Hk as (r & -> & Hr).
    destruct (Hnew r Hr) as (r0 & Hr0 & <- & _). apply list_elem_of_fmap. eauto. }
  rewrite Hk.
  assert (H : forall k, k ∈ group_keys t -> k ∈ group_keys t) by done.
  revert H. generalize (group_keys t) at 1 3 4. intros ks Hks.
  induction ks as [|k ks IH]; [reflexivity|].
  assert (Hin : k ∈ group_keys t) by (apply Hks; constructor).
  assert (IH' : map key_min_max
                  (omap (fun k0 => aggregate k0 (group_values (t ++ new) k0)) ks) ≡ₚ
                map key_min_max (omap (fun k0 => aggregate k0 (group_values t k0)) ks))
    by (apply IH; intros k' Hk'; apply Hks; by constructor).
  clear IH. simpl.
  destruct (aggregate_group t k Hin) as (x & xs & Hg & E).
  assert (Hys : forall y, y ∈ group_values new k -> y ∈ x :: xs).
  { intros y Hy. rewrite <- Hg. apply group_values_elem in Hy as (r & Hr & Hd & <-).
    destruct (Hnew r Hr) as (r0 & Hr0 & Hd0 & Hs0).
    apply group_values_elem. exists r0. split; [done|]. split; [congruence|].
    unfold monthly. by rewrite Hs0. }
  rewrite E, group_values_app, Hg. cbn [app aggregate map].
  rewrite IH'. unfold key_min_max at 1 3.
  cbn [agg_designation min_monthly_salary max_monthly_salary].
  by rewrite (sql_min_seen _ _ _ Hys), (sql_max_seen _ _ _ Hys).
Qed.

(** X14.  A second run of the script on the same file appends every row
    again, yet the query keeps its groups and, for each group, its least
    and its greatest monthly salary; only the mean is computed over twice
    the rows, so that the order of the output rows may change. *)
Theorem rerun_keeps_min_max U (o1 o2 : row_order) (df : list (Row cell))
    (t0 t1 t2 : table) :
  populate U df t0 = Return t1 ->
  populate U df t1 = Return t2 ->
  length t2 = (length t1 + length df)%nat /\
  map key_min_max (select_salaries o2 t2) ≡ₚ map key_min_max (select_salaries o1 t1).
Proof.
  intros H1 H2.
  apply populate_stored in H1 as (new & -> & F1).
  apply populate_stored in H2 as (new' & -> & F2).
  split.
  { rewrite (length_app (t0 ++ new)). f_equal. symmetry. by eapply Forall2_length. }
  apply select_salaries_seen. intros r Hr.
  apply list_elem_of_lookup in Hr as (i & Hi).
  destruct (Forall2_lookup_r _ _ _ _ _ F2 Hi) as (row & Hrow & Hst).
  destruct (Forall2_lookup_l _ _ _ _ _ F1 Hrow) as (r0 & Hr0 & Hst0).
  apply stored_as_designation in Hst as [Hd Hs].
  apply stored_as_designation in Hst0 as [Hd0 Hs0].
  exists r0. split; [|split; congruence].
  apply elem_of_app. right. by eapply list_elem_of_lookup_2.
Qed.

Lemma rerun_keeps_min_max_witness :
  exists t1 t2,
    populate latin1 [employee "Ana" CNaN "Manager" 120000;
                     employee "Rui" CNaN "Manager" 60000] [] = Return t1 /\
    populate latin1 [employee "Ana" CNaN "Manager" 120000;
                     employee "Rui" CNaN "Manager" 60000] t1 = Return t2 /\
    length t2 = 4%nat /\
    map key_min_max (select_salaries by_key t2) ≡ₚ
    [(lit "Manager", 5000%float, 10000%float)].
Proof.
  eexists. eexists. split; [vm_compute; reflexivity|].
  split; [vm_compute; reflexivity|].
  destruct (rerun_keeps_min_max latin1 by_key by_key
              [employee "Ana" CNaN "Manager" 120000;
               employee "Rui" CNaN "Manager" 60000] [] _ _ eq_refl eq_refl) as [L P].
  split; [exact L | exact P].
Defined.
